(** * coldb: command compiler, operator dispatcher and batch queue

    A shallow embedding of [utils_func.c], [parse.c], [db_batch_queue.c]
    and [server.c], followed by the properties of the design document
    that concern them.

    Conventions of the embedding:
    - a C string is the list of its characters up to, and without, the
      terminating NUL ([cstr]); where the code writes into the command
      buffer ([strsep], the closing-parenthesis check) the buffer itself
      is a [list ascii] and a [char*] is an offset into it;
    - a pointer is [option addr], [None] being [NULL];
    - a C computation that may have no defined behaviour returns
      [result A]: [Ok a], [Undefined] (null or dangling dereference,
      write past an allocation, signed overflow, use of an undetermined
      value) or [OutOfFuel] (a loop bound of the embedding was hit);
    - [malloc] never zeroes: the contents of a fresh [bqNode] are an
      argument of the operation that allocates it;
    - the diagnostics of the compiler ([log_err] and [cs165_log] in
      parse.c) are left out: [parse_command] gives the status and the
      operator; the lines the dispatcher hands to [log_err] are part
      of its state;
    - the primitives of [<string.h>], [<stdlib.h>] and [<ctype.h>] are
      given by their C-locale, LP64 behaviour. *)

From Stdlib Require Import ZArith Ascii String Lia.
From stdpp Require Import base option list gmap.

Local Open Scope Z_scope.

(** ** Outcome of a C computation *)

Inductive result (A : Type) : Type :=
  | Ok (a : A)
  | Undefined
  | OutOfFuel.
Arguments Ok {A} a.
Arguments Undefined {A}.
Arguments OutOfFuel {A}.

#[global] Instance result_ret : MRet result := fun _ a => Ok a.
#[global] Instance result_bind : MBind result := fun _ _ k r =>
  match r with
  | Ok a => k a
  | Undefined => Undefined
  | OutOfFuel => OutOfFuel
  end.

(** ** C strings and the libc primitives the sources call *)

Abbreviation cstr := (list ascii).

Definition lit (s : string) : cstr := list_ascii_of_string s.

Definition NUL : ascii := ascii_of_nat 0.
Definition newline : ascii := ascii_of_nat 10.
Definition dquote : ascii := ascii_of_nat 34.

Definition code (c : ascii) : Z := Z.of_nat (nat_of_ascii c).

Module libc.

Definition INT_MAX : Z := 2 ^ 31 - 1.
Definition LONG_MAX : Z := 2 ^ 63 - 1.
Definition LONG_MIN : Z := - 2 ^ 63.

(** Conversion to [int] (two's complement, 32 bits). *)
Definition to_int (z : Z) : Z := (z + 2 ^ 31) mod 2 ^ 32 - 2 ^ 31.

(** Conversion to [size_t] (64 bits, unsigned). *)
Definition to_size_t (z : Z) : Z := z mod 2 ^ 64.

(** [isspace] in the C locale: space, \t, \n, \v, \f, \r. *)
Definition isspace (c : ascii) : bool :=
  (code c =? 32) || ((9 <=? code c) && (code c <=? 13)).

Definition isdigit (c : ascii) : bool :=
  (48 <=? code c) && (code c <=? 57).

(** The characters of the string that starts at the head of [l]. *)
Fixpoint until_nul (l : list ascii) : cstr :=
  match l with
  | [] => []
  | c :: r => if bool_decide (c = NUL) then [] else c :: until_nul r
  end.

(** [strncmp a b n]: difference of the first differing characters among
    the first [n], the end of a string counting as NUL. *)
Fixpoint strncmp (a b : cstr) (n : nat) : Z :=
  match n with
  | O => 0
  | S n' =>
      match a, b with
      | [], [] => 0
      | [], y :: _ => - code y
      | x :: _, [] => code x
      | x :: a', y :: b' =>
          if bool_decide (x = y) then strncmp a' b' n' else code x - code y
      end
  end.

(** [strchr s c]: offset of the first [c] in [s], [None] for NULL. *)
Fixpoint strchr (s : cstr) (c : ascii) : option nat :=
  match s with
  | [] => None
  | x :: r => if bool_decide (x = c) then Some O else S <$> strchr r c
  end.

(** Value of a run of decimal digits, left to right. *)
Fixpoint digits (acc : Z) (s : cstr) : Z :=
  match s with
  | [] => acc
  | c :: r => if isdigit c then digits (10 * acc + (code c - 48)) r else acc
  end.

Fixpoint skip_space (s : cstr) : cstr :=
  match s with
  | [] => []
  | c :: r => if isspace c then skip_space r else s
  end.

(** [strtol (s, NULL, 10)]: leading white space, an optional sign, the
    digits; a value out of range is clamped to [LONG_MIN]/[LONG_MAX]. *)
Definition strtol (s : cstr) : Z :=
  let v :=
    match skip_space s with
    | [] => 0
    | c :: r =>
        if bool_decide (c = "-"%char) then - digits 0 r
        else if bool_decide (c = "+"%char) then digits 0 r
        else digits 0 (c :: r)
    end in
  Z.max LONG_MIN (Z.min LONG_MAX v).

(** [atoi (s)] is [(int) strtol (s, NULL, 10)]. *)
Definition atoi (s : cstr) : Z := to_int (strtol s).

End libc.

(** ** utils_func.c *)

Module utils_func.

(** Each [trim_*] walks the string with a read index [i] and a write
    index [current <= i], copies the characters it keeps and ends the
    string at [current]: the string left in place is the kept
    characters in their order. *)

Fixpoint trim_newline (str : cstr) : cstr :=
  match str with
  | [] => []
  | c :: r =>
      if negb (bool_decide (c = ascii_of_nat 13) || bool_decide (c = newline))
      then c :: trim_newline r
      else trim_newline r
  end.

Fixpoint trim_whitespace (str : cstr) : cstr :=
  match str with
  | [] => []
  | c :: r =>
      if negb (libc.isspace c) then c :: trim_whitespace r
      else trim_whitespace r
  end.

Fixpoint trim_parenthesis (str : cstr) : cstr :=
  match str with
  | [] => []
  | c :: r =>
      if negb (bool_decide (c = "("%char) || bool_decide (c = ")"%char))
      then c :: trim_parenthesis r
      else trim_parenthesis r
  end.

Fixpoint trim_quote (str : cstr) : cstr :=
  match str with
  | [] => []
  | c :: r =>
      if bool_decide (c <> dquote) then c :: trim_quote r
      else trim_quote r
  end.

End utils_func.

(** ** The command buffer

    [parse_create_tbl] and [parse_create_col] cut their argument with
    [strsep], which writes NUL over each delimiter, and then index the
    last token relative to its start. Both are modelled on the buffer:
    the bytes of [query_command] followed by its terminator, pointers
    being offsets from [query_command]. *)

Module cbuf.

Definition of_cstr (s : cstr) : list ascii := s ++ [NUL].

(** The string a pointer into the buffer designates. *)
Definition c_string (buf : list ascii) (p : nat) : cstr :=
  libc.until_nul (drop p buf).

Definition strlen (buf : list ascii) (p : nat) : nat :=
  length (c_string buf p).

(** [p[i]] for a signed index: [None] outside the buffer. *)
Definition char_at (buf : list ascii) (p : nat) (i : Z) : option ascii :=
  if Z.of_nat p + i <? 0 then None else buf !! Z.to_nat (Z.of_nat p + i).

(** [p[i] = c]: [None] outside the buffer. *)
Definition store (buf : list ascii) (p : nat) (i : Z) (c : ascii)
  : option (list ascii) :=
  match char_at buf p i with
  | Some _ => Some (<[Z.to_nat (Z.of_nat p + i) := c]> buf)
  | None => None
  end.

(** Rewriting the string at [p] in place by a string no longer than
    it: the new characters and a terminator, the bytes behind kept. *)
Definition rewrite_at (buf : list ascii) (p : nat) (s : cstr) : list ascii :=
  take p buf ++ s ++ NUL :: drop (p + length s + 1) buf.

(** [strsep (&stringp, delim)] for a one-character [delim]: the token
    is the old [*stringp]; the first delimiter is overwritten with NUL
    and [*stringp] moves behind it, or becomes NULL when there is
    none. Result: buffer, new [*stringp], token. *)
Definition strsep (buf : list ascii) (stringp : option nat) (delim : ascii)
  : list ascii * option nat * option nat :=
  match stringp with
  | None => (buf, None, None)
  | Some p =>
      match libc.strchr (c_string buf p) delim with
      | Some i => (<[(p + i)%nat := NUL]> buf, Some (p + i + 1)%nat, Some p)
      | None => (buf, None, Some p)
      end
  end.

End cbuf.

(** ** parse.c *)

Module parse.

(** The values of [message_status] that the compiler assigns. *)
Inductive message_status : Set :=
  | OK_DONE
  | OK_WAIT_FOR_RESPONSE
  | INCORRECT_FORMAT.

#[global] Instance message_status_eq_dec : EqDecision message_status.
Proof. solve_decision. Defined.

(** The session context is opaque to the compiler and the dispatcher. *)
Inductive ClientContext : Set := client_context.

(** The tags of [OperatorType]; the sources at hand never name the tag
    of a selection, [SELECT] here. *)
Inductive OperatorType : Set :=
  | CREATE_DB | CREATE_TBL | CREATE_COL | LOAD | INSERT | SELECT
  | SHUTDOWN | ERROR_CMD.

#[global] Instance OperatorType_eq_dec : EqDecision OperatorType.
Proof. solve_decision. Defined.

(** The union [operator_fields], one constructor per member the
    sources read or write; [col_count] is a [size_t]. A shutdown
    operator has its tag only. *)
Inductive OperatorFields : Type :=
  | create_db_operator (db_name : cstr)
  | create_tbl_operator (db_name tbl_name : cstr) (col_count : Z)
  | create_col_operator (tbl_name col_name : cstr)
  | load_operator (data_path : cstr)
  | select_operator (select_col pre_range post_range handle : cstr)
  | err_cmd_operator (err_info : cstr)
  | shutdown_operator.

Record DbOperator : Type := {
  operator_fields : OperatorFields;
  client_fd : Z;
  context : option ClientContext
}.

Definition type (dbo : DbOperator) : OperatorType :=
  match operator_fields dbo with
  | create_db_operator _ => CREATE_DB
  | create_tbl_operator _ _ _ => CREATE_TBL
  | create_col_operator _ _ => CREATE_COL
  | load_operator _ => LOAD
  | select_operator _ _ _ _ => SELECT
  | err_cmd_operator _ => ERROR_CMD
  | shutdown_operator => SHUTDOWN
  end.

(** Modelled from the spec: [trim_quotes], declared in utils.h and
    defined outside the sources at hand; "every quote character is
    deleted, not just the first and last", which is what [trim_quote]
    of utils_func.c does. *)
Definition trim_quotes (str : cstr) : cstr := utils_func.trim_quote str.

(** [trim_quotes] applied to the token at [p] of the buffer. *)
Definition trim_quotes_at (buf : list ascii) (p : nat) : list ascii :=
  cbuf.rewrite_at buf p (trim_quotes (cbuf.c_string buf p)).

Record tokens : Type := {
  buf : list ascii;
  tokenizer : option nat;
  status : message_status
}.

Definition next_token_comma (t : tokens) : tokens * option nat :=
  let '(b, tk, token) := cbuf.strsep (buf t) (tokenizer t) ","%char in
  ({| buf := b; tokenizer := tk;
      status := if token is None then INCORRECT_FORMAT else status t |},
   token).

Definition next_token_period (t : tokens) : tokens * option nat :=
  let '(b, tk, token) := cbuf.strsep (buf t) (tokenizer t) "."%char in
  ({| buf := b; tokenizer := tk;
      status := if token is None then INCORRECT_FORMAT else status t |},
   token).

Definition error_dbo (error_info : cstr) : OperatorFields :=
  err_cmd_operator error_info.

Definition create_col_usage : cstr :=
  lit "create column command is error, use command like [create(col,"
  ++ dquote :: lit "col_name" ++ dquote :: lit ",full_tbl_name)]".

Definition create_tbl_usage : cstr :=
  lit "create table command is error, use command like [create(tbl,"
  ++ dquote :: lit "grades" ++ dquote :: lit ",name,2)]".

Definition create_db_usage : cstr :=
  lit "create database command is error, use command like [create(db,"
  ++ dquote :: lit "name" ++ dquote :: lit ")]".

Definition load_usage : cstr :=
  lit "load data command is error, use command like [load("
  ++ dquote :: lit "data_path" ++ dquote :: lit ")]".

Definition wrong_column_number : cstr :=
  lit "query unsupported, wrong column number".

Definition error_command : cstr :=
  lit "error command, please try again." ++ [newline].

(** [(int) strlen (token) - 1], the index both tokenising handlers use
    for the closing parenthesis. *)
Definition last_char (b : list ascii) (token : nat) : Z :=
  libc.to_int (Z.of_nat (cbuf.strlen b token)) - 1.

(** An index is inside a token when it designates one of its
    characters. *)
Definition in_token (b : list ascii) (token : nat) (i : Z) : Prop :=
  0 <= i < Z.of_nat (cbuf.strlen b token).

(** The three [next_token_comma] calls that open [parse_create_tbl]. *)
Definition create_tbl_tokens (query_command : cstr)
  : tokens * option nat * option nat * option nat :=
  let t0 := {| buf := cbuf.of_cstr query_command; tokenizer := Some O;
               status := OK_DONE |} in
  let '(t1, tbl_name) := next_token_comma t0 in
  let '(t2, db_name) := next_token_comma t1 in
  let '(t3, col_cnt) := next_token_comma t2 in
  (t3, tbl_name, db_name, col_cnt).

Definition parse_create_tbl (query_command : cstr) : result OperatorFields :=
  let '(t, tbl_name, db_name, col_cnt) := create_tbl_tokens query_command in
  if decide (status t = INCORRECT_FORMAT) then Ok (error_dbo create_tbl_usage)
  else
    match tbl_name, db_name, col_cnt with
    | Some tbl_name, Some db_name, Some col_cnt =>
        let b := trim_quotes_at (buf t) tbl_name in
        let last_char := last_char b col_cnt in
        match cbuf.char_at b col_cnt last_char with
        | None => Undefined
        | Some c =>
            if bool_decide (c <> ")"%char) then Ok (error_dbo create_tbl_usage)
            else
              match cbuf.store b col_cnt last_char NUL with
              | None => Undefined
              | Some b =>
                  let column_cnt :=
                    libc.to_size_t (libc.atoi (cbuf.c_string b col_cnt)) in
                  if column_cnt <? 1 then Ok (error_dbo wrong_column_number)
                  else
                    let db := cbuf.c_string b db_name in
                    let tbl := cbuf.c_string b tbl_name in
                    Ok (create_tbl_operator db (db ++ "."%char :: tbl)
                          column_cnt)
              end
        end
    | _, _, _ => Undefined
    end.

(** The two [next_token_comma] calls of [parse_create_col], with the
    [trim_quotes] of the column name between them. *)
Definition create_col_tokens (query_command : cstr)
  : tokens * option nat * option nat :=
  let t0 := {| buf := cbuf.of_cstr query_command; tokenizer := Some O;
               status := OK_DONE |} in
  let '(t1, col_name) := next_token_comma t0 in
  let t1' :=
    match col_name with
    | Some p => {| buf := trim_quotes_at (buf t1) p;
                   tokenizer := tokenizer t1; status := status t1 |}
    | None => t1
    end in
  let '(t2, full_tbl_name) := next_token_comma t1' in
  (t2, col_name, full_tbl_name).

Definition parse_create_col (query_command : cstr) : result OperatorFields :=
  let '(t, col_name, full_tbl_name) := create_col_tokens query_command in
  if decide (status t = INCORRECT_FORMAT) then Ok (error_dbo create_col_usage)
  else
    match col_name, full_tbl_name with
    | Some col_name, Some full_tbl_name =>
        let b := buf t in
        let last_char := last_char b full_tbl_name in
        match cbuf.char_at b full_tbl_name last_char with
        | None => Undefined
        | Some c =>
            if bool_decide (c <> ")"%char) then Ok (error_dbo create_col_usage)
            else
              match cbuf.store b full_tbl_name last_char NUL with
              | None => Undefined
              | Some b =>
                  let tbl := cbuf.c_string b full_tbl_name in
                  let col := cbuf.c_string b col_name in
                  Ok (create_col_operator tbl (tbl ++ "."%char :: col))
              end
        end
    | _, _ => Undefined
    end.

(** [parse_create_db] and [parse_load] guard the index with
    [last_char < 0] and read no other byte: on the string itself. *)
Definition parse_create_db (query_command : cstr) : OperatorFields :=
  let db_name := trim_quotes query_command in
  let last_char := libc.to_int (Z.of_nat (length db_name)) - 1 in
  if (last_char <? 0)
     || bool_decide (db_name !! Z.to_nat last_char <> Some ")"%char)
  then error_dbo create_db_usage
  else create_db_operator (take (Z.to_nat last_char) db_name).

Definition parse_load (query_command : cstr) : OperatorFields :=
  let data_path := trim_quotes query_command in
  let last_char := libc.to_int (Z.of_nat (length data_path)) - 1 in
  if (last_char <? 0)
     || bool_decide (data_path !! Z.to_nat last_char <> Some ")"%char)
  then error_dbo load_usage
  else load_operator (take (Z.to_nat last_char) data_path).

(** The body of [parse_insert] is commented out: control reaches the
    end of a non-void function and the caller uses the value. *)
Definition parse_insert (query_command : cstr) : result OperatorFields :=
  Undefined.

(** The keyword chain of [parse_command], on the trimmed command. *)
Definition parse_keyword (query_command : cstr) : result OperatorFields :=
  if libc.strncmp query_command (lit "create(db,") 10 =? 0 then
    Ok (parse_create_db (drop 10 query_command))
  else if libc.strncmp query_command (lit "create(tbl,") 11 =? 0 then
    parse_create_tbl (drop 11 query_command)
  else if libc.strncmp query_command (lit "create(col,") 11 =? 0 then
    parse_create_col (drop 11 query_command)
  else if libc.strncmp query_command (lit "load(") 5 =? 0 then
    Ok (parse_load (drop 5 query_command))
  else if libc.strncmp query_command (lit "relational_insert") 17 =? 0 then
    parse_insert (drop 17 query_command)
  else if libc.strncmp query_command (lit "shutdown") 8 =? 0 then
    Ok shutdown_operator
  else
    Ok (error_dbo error_command).

(** The result handle and the command text: the text is cut at the
    first [=]. *)
Definition split_handle (query_command : cstr) : option cstr * cstr :=
  match libc.strchr query_command "="%char with
  | Some i => (Some (take i query_command), drop (S i) query_command)
  | None => (None, query_command)
  end.

(** [parse_command]: the status stored into [send_message] and the
    operator returned, [Ok None] being the NULL of a comment line. *)
Definition parse_command (query_command : cstr) (client_socket : Z)
    (context : option ClientContext)
  : message_status * result (option DbOperator) :=
  if libc.strncmp query_command (lit "--") 2 =? 0 then (OK_DONE, Ok None)
  else
    let '(handle, query_command) := split_handle query_command in
    let query_command := utils_func.trim_whitespace query_command in
    (OK_WAIT_FOR_RESPONSE,
     fields ← parse_keyword query_command;
     Ok (Some {| operator_fields := fields; client_fd := client_socket;
                 context := context |})).

End parse.

(** ** db_batch_queue.c *)

Module db_batch_queue.

Import parse.

Abbreviation addr := positive.

(** [share_query_handle] points to a buffer the node owns; the field
    holds the string in that buffer. *)
Record bqNode : Type := {
  query : option addr;
  next : option addr;
  share_query_handle : cstr
}.

Record batchQueue : Type := {
  head : addr;
  tail : addr;
  length : Z
}.

(** The heap, by type of object, the allocation pointer, the global
    [bq] and what [log_err] wrote. The second global, [bqr], is never
    assigned nor read. *)
Record memory : Type := {
  operators : gmap addr DbOperator;
  nodes : gmap addr bqNode;
  queues : gmap addr batchQueue;
  brk : addr;
  bq : option addr;
  stderr : list cstr
}.

Definition set_nodes (f : gmap addr bqNode -> gmap addr bqNode) (m : memory)
  : memory :=
  {| operators := operators m; nodes := f (nodes m); queues := queues m;
     brk := brk m; bq := bq m; stderr := stderr m |}.

Definition set_queues (f : gmap addr batchQueue -> gmap addr batchQueue)
    (m : memory) : memory :=
  {| operators := operators m; nodes := nodes m; queues := f (queues m);
     brk := brk m; bq := bq m; stderr := stderr m |}.

Definition set_bq (p : option addr) (m : memory) : memory :=
  {| operators := operators m; nodes := nodes m; queues := queues m;
     brk := brk m; bq := p; stderr := stderr m |}.

Definition log_err (line : cstr) (m : memory) : memory :=
  {| operators := operators m; nodes := nodes m; queues := queues m;
     brk := brk m; bq := bq m; stderr := stderr m ++ [line] |}.

(** [malloc]: [NULL] when the request is refused ([ok = false]),
    otherwise an address never handed out before. *)
Definition malloc (ok : bool) (m : memory) : option addr * memory :=
  if ok then
    (Some (brk m),
     {| operators := operators m; nodes := nodes m; queues := queues m;
        brk := Pos.succ (brk m); bq := bq m; stderr := stderr m |})
  else (None, m).

(** [strcpy] into a buffer of [capacity] bytes. *)
Definition strcpy (capacity : Z) (src : cstr) : result cstr :=
  if Z.of_nat (List.length src) + 1 <=? capacity then Ok src else Undefined.

(** parse.h and db_batch_queue.h, which declare the operator and the
    queue, are not among the sources. Two facts of those declarations
    bear on the code below and are parameters of it:
    [sizeof_handle], the value of
    [sizeof (query->operator_fields.select_operator.handle)], and
    [length_max], the largest value of the type of [bq->length], from
    which [bq->length++] has no defined result. *)
Class layout : Type := {
  sizeof_handle : Z;
  length_max : Z
}.

(** The layout when [handle] is a [char*], as the handle of
    [parse_command] is, and [length] an [int], on LP64. *)
Definition lp64 : layout :=
  {| sizeof_handle := 8; length_max := libc.INT_MAX |}.

Section with_layout.
Context {abi : layout}.

Definition create_node (query : option addr) (ok_node ok_handle : bool)
    (m : memory) : result (option addr * memory) :=
  match malloc ok_node m with
  | (None, m) =>
      Ok (None, log_err (lit "create batch queue node failed." ++ [newline]) m)
  | (Some node, m) =>
      let '(buffer, m) := malloc ok_handle m in
      match query with
      | None => Undefined
      | Some q =>
          match operator_fields <$> operators m !! q with
          | Some (select_operator _ _ _ handle) =>
              match buffer with
              | None => Undefined
              | Some _ =>
                  copy ← strcpy ((sizeof_handle + 1) * 1) handle;
                  Ok (Some node,
                      set_nodes
                        <[node := {| query := query; next := None;
                                     share_query_handle := copy |}]> m)
              end
          | _ => Undefined
          end
      end
  end.

(** [create_batch_queue]: the sentinel is allocated and none of its
    fields is assigned; [junk] is what the allocation holds. *)
Definition create_batch_queue (ok_bq ok_node : bool) (junk : bqNode)
    (m : memory) : Z * memory :=
  match malloc ok_bq m with
  | (None, m) => (1, set_bq None m)
  | (Some q, m) =>
      let m := set_bq (Some q) m in
      match malloc ok_node m with
      | (None, m) => (1, set_queues (delete q) m)
      | (Some node, m) =>
          (0, set_queues <[q := {| head := node; tail := node; length := 0 |}]>
                (set_nodes <[node := junk]> m))
      end
  end.

Definition add_batch_queue (node : option addr) (m : memory)
  : result (Z * memory) :=
  match bq m, node with
  | Some q, Some n =>
      match queues m !! q with
      | None => Undefined
      | Some Q =>
          match nodes m !! tail Q with
          | None => Undefined
          | Some t =>
              if length Q =? length_max then Undefined
              else
                Ok (0,
                    set_queues
                      <[q := {| head := head Q; tail := n;
                                length := length Q + 1 |}]>
                      (set_nodes
                         <[tail Q := {| query := query t; next := Some n;
                                        share_query_handle :=
                                          share_query_handle t |}]> m))
          end
      end
  | _, _ =>
      Ok (1, log_err (lit "The queue or the adding node is null." ++ [newline]) m)
  end.

Definition is_bq_empty (m : memory) : result Z :=
  match bq m with
  | None => Ok 0
  | Some q =>
      match queues m !! q with
      | None => Undefined
      | Some Q => if decide (head Q = tail Q) then Ok 0 else Ok 1
      end
  end.

(** The loop of [show_batch_query], [visit] standing for its body. *)
Fixpoint walk {A : Type} (fuel : nat) (m : memory)
    (visit : addr -> bqNode -> result A) (node : option addr)
  : result (list A) :=
  match node with
  | None => Ok []
  | Some a =>
      match fuel with
      | O => OutOfFuel
      | S fuel =>
          match nodes m !! a with
          | None => Undefined
          | Some nd =>
              x ← visit a nd;
              rest ← walk fuel m visit (next nd);
              Ok (x :: rest)
          end
      end
  end.

(** [show_batch_query] with the loop body abstracted: nothing when
    [is_bq_empty] answers 0, else the nodes from [bq->head->next]. *)
Definition traverse {A : Type} (fuel : nat) (m : memory)
    (visit : addr -> bqNode -> result A) : result (list A) :=
  e ← is_bq_empty m;
  if e =? 0 then Ok []
  else
    match bq m with
    | None => Undefined
    | Some q =>
        match queues m !! q with
        | None => Undefined
        | Some Q =>
            match nodes m !! head Q with
            | None => Undefined
            | Some s => walk fuel m visit (next s)
            end
        end
    end.

(** The [printf] of the loop body. *)
Definition print_query (m : memory) (a : addr) (nd : bqNode) : result cstr :=
  match query nd with
  | None => Undefined
  | Some q =>
      match operator_fields <$> operators m !! q with
      | Some (select_operator select_col pre_range post_range _) =>
          Ok (lit "query: " ++ select_col ++ lit ", " ++ pre_range
              ++ lit ", " ++ post_range ++ lit "." ++ [newline])
      | _ => Undefined
      end
  end.

(** [show_batch_query]: the lines written to standard output. *)
Definition show_batch_query (fuel : nat) (m : memory) : result (list cstr) :=
  traverse fuel m (print_query m).

(** The addresses of the nodes the traversal visits. *)
Definition queue_nodes (fuel : nat) (m : memory) : result (list addr) :=
  traverse fuel m (fun a _ => Ok a).

(** What a consumer of the queue reads at a node: the range of the
    query the node points to and the node's copy of the handle. *)
Definition read_select (m : memory) (a : addr) (nd : bqNode)
  : result (cstr * cstr * cstr) :=
  match query nd with
  | None => Undefined
  | Some q =>
      match operator_fields <$> operators m !! q with
      | Some (select_operator _ pre_range post_range _) =>
          Ok (pre_range, post_range, share_query_handle nd)
      | _ => Undefined
      end
  end.

Definition queue_selects (fuel : nat) (m : memory)
  : result (list (cstr * cstr * cstr)) :=
  traverse fuel m (read_select m).

(** *** Runs of queue operations

    A client of the queue creates it and, per selection, wraps the
    operator with [create_node] and hands the node to
    [add_batch_queue]. Each operation carries what the allocator does
    during it. *)
Inductive op : Type :=
  | op_create (ok_bq ok_node : bool) (junk : bqNode)
  | op_enqueue (query : option addr) (ok_node ok_handle : bool).

Definition enqueue (query : option addr) (ok_node ok_handle : bool)
    (m : memory) : result (Z * memory) :=
  '(node, m) ← create_node query ok_node ok_handle m;
  add_batch_queue node m.

Definition step (o : op) (m : memory) : result memory :=
  match o with
  | op_create ok_bq ok_node junk =>
      Ok (snd (create_batch_queue ok_bq ok_node junk m))
  | op_enqueue query ok_node ok_handle =>
      '(_, m) ← enqueue query ok_node ok_handle m; Ok m
  end.

Fixpoint run (program : list op) (m : memory) : result memory :=
  match program with
  | [] => Ok m
  | o :: program => m ← step o m; run program m
  end.

End with_layout.

(** Program start: the operators the compiler produced, no node, no
    queue, [bq] null. *)
Definition start (ops : gmap addr DbOperator) : memory :=
  {| operators := ops; nodes := ∅; queues := ∅; brk := 1%positive;
     bq := None; stderr := [] |}.

End db_batch_queue.

(** ** server.c *)

Module server.

Import parse.

(** The catalogue functions of db_manager.h and of the key-value
    stores are defined outside the sources at hand. The dispatcher
    tests their results only: a pointer against NULL, an [int]
    against 0. *)
Class db_manager (Catalog : Type) : Type := {
  create_db : cstr -> Catalog -> option positive * Catalog;
  create_table : cstr -> cstr -> Z -> Catalog -> option positive * Catalog;
  create_column : cstr -> cstr -> Catalog -> option positive * Catalog;
  load_data_csv : cstr -> Catalog -> Z * Catalog;
  persist_data_csv : Catalog -> Z * Catalog;
  free_db_store : Catalog -> Catalog;
  free_tbl_store : Catalog -> Catalog;
  free_col_store : Catalog -> Catalog
}.

(** The calls that leave the dispatcher, in the order they are made. *)
Inductive call : Type :=
  | call_create_db (db_name : cstr)
  | call_create_table (db_name tbl_name : cstr) (col_count : Z)
  | call_create_column (tbl_name col_name : cstr)
  | call_load_data_csv (data_path : cstr)
  | call_persist_data_csv
  | call_free_db_store
  | call_free_tbl_store
  | call_free_col_store.

(** What the dispatcher works on: the catalogue, the current database,
    the lines [execute_DbOperator] hands to [log_err], and the trace of
    its calls into the catalogue. *)
Record world (Catalog : Type) : Type := {
  catalog : Catalog;
  current_db : option positive;
  stderr : list cstr;
  calls : list call
}.
Arguments catalog {Catalog} w.
Arguments current_db {Catalog} w.
Arguments stderr {Catalog} w.
Arguments calls {Catalog} w.

Section dispatcher.
Context {Catalog : Type} {manager : db_manager Catalog}.

(** An external call: the catalogue it leaves and its trace entry. *)
Definition called (c : call) (cat : Catalog) (w : world Catalog)
  : world Catalog :=
  {| catalog := cat; current_db := current_db w; stderr := stderr w;
     calls := calls w ++ [c] |}.

Definition set_current_db (p : option positive) (w : world Catalog)
  : world Catalog :=
  {| catalog := catalog w; current_db := p; stderr := stderr w;
     calls := calls w |}.

Definition log_err (line : cstr) (w : world Catalog) : world Catalog :=
  {| catalog := catalog w; current_db := current_db w;
     stderr := stderr w ++ [line]; calls := calls w |}.

Definition answer (s : string) : cstr := lit s ++ [newline].

(** [execute_DbOperator]: [query] is a pointer and its first use
    reads [query->type]. Releasing the operator ([free_query],
    [free]) leaves the catalogue and the response as they are. *)
Definition execute_DbOperator (query : option DbOperator) (w : world Catalog)
  : result (cstr * world Catalog) :=
  match query with
  | None => Undefined
  | Some query =>
      match operator_fields query with
      | err_cmd_operator _ =>
          Ok (answer "error command, please try again.", w)
      | create_db_operator db_name =>
          let '(db, cat) := create_db db_name (catalog w) in
          let w := set_current_db db (called (call_create_db db_name) cat w) in
          if db is None then Ok (answer "create database failed.", w)
          else Ok (answer "create database successfully.", w)
      | create_tbl_operator db_name tbl_name col_count =>
          let '(tbl, cat) := create_table db_name tbl_name col_count (catalog w) in
          let w := called (call_create_table db_name tbl_name col_count) cat w in
          if tbl is None then Ok (answer "create table failed.", w)
          else Ok (answer "create table successfully.", w)
      | create_col_operator full_tbl_name full_col_name =>
          let '(col, cat) := create_column full_tbl_name full_col_name (catalog w) in
          let w := called (call_create_column full_tbl_name full_col_name) cat w in
          if col is None then Ok (answer "create column failed.", w)
          else Ok (answer "create column successfully.", w)
      | load_operator data_path =>
          let '(r, cat) := load_data_csv data_path (catalog w) in
          let w := called (call_load_data_csv data_path) cat w in
          if negb (r =? 0) then Ok (answer "load data into database failed.", w)
          else Ok (answer "load data into database successfully.", w)
      | shutdown_operator =>
          let '(r, cat) := persist_data_csv (catalog w) in
          let w := called call_persist_data_csv cat w in
          let w :=
            if negb (r =? 0)
            then log_err (answer "persist all the data failed.") w
            else w in
          let w := called call_free_db_store (free_db_store (catalog w)) w in
          let w := called call_free_tbl_store (free_tbl_store (catalog w)) w in
          let w := called call_free_col_store (free_col_store (catalog w)) w in
          Ok (answer "persist all the data and shutdown the server.", w)
      | select_operator _ _ _ _ =>
          Ok (answer "unsupported command, try again.", w)
      end
  end.

(** What one turn of the loop of [handle_client] does with a
    received command: the reply sent, or the loop left. *)
Inductive turn : Type :=
  | reply (status : message_status) (response : cstr)
  | leave.

(** What [strncmp (recv_message.payload, "shutdown", 8)] reads once
    [parse_command] has returned, the payload having been rewritten in
    place: untouched for a comment, ended at the first [=], else
    trimmed. (A handler writes behind its own keyword only, and that
    keyword already differs from [shutdown] in its first character.) *)
Definition payload_after (payload : cstr) : cstr :=
  if libc.strncmp payload (lit "--") 2 =? 0 then payload
  else
    match libc.strchr payload "="%char with
    | Some i => take i payload
    | None => utils_func.trim_whitespace payload
    end.

Definition handle_command (recv_buffer : list ascii) (client_socket : Z)
    (w : world Catalog) : result (turn * world Catalog) :=
  let payload := libc.until_nul recv_buffer in
  let '(status, query) := parse_command payload client_socket None in
  query ← query;
  '(response, w) ← execute_DbOperator query w;
  if libc.strncmp (payload_after payload) (lit "shutdown") 8 =? 0
  then Ok (leave, w)
  else Ok (reply status response, w).

End dispatcher.

End server.

(** ** Sample data *)

Module samples.

Import parse.

(** A catalogue manager that accepts everything. *)
Definition accepting : server.db_manager unit := {|
  server.create_db := fun _ c => (Some 1%positive, c);
  server.create_table := fun _ _ _ c => (Some 1%positive, c);
  server.create_column := fun _ _ c => (Some 1%positive, c);
  server.load_data_csv := fun _ c => (0, c);
  server.persist_data_csv := fun c => (0, c);
  server.free_db_store := fun c => c;
  server.free_tbl_store := fun c => c;
  server.free_col_store := fun c => c
|}.

(** A manager over a journal of what it was asked; persistence
    fails. *)
Definition failing_disk : server.db_manager (list string) := {|
  server.create_db := fun _ c => (None, c);
  server.create_table := fun _ _ _ c => (None, c);
  server.create_column := fun _ _ c => (None, c);
  server.load_data_csv := fun _ c => (1, c);
  server.persist_data_csv := fun c => (1, c ++ ["persist"%string]);
  server.free_db_store := fun c => c ++ ["free db"%string];
  server.free_tbl_store := fun c => c ++ ["free tbl"%string];
  server.free_col_store := fun c => c ++ ["free col"%string]
|}.

Definition idle {Catalog : Type} (c : Catalog) : server.world Catalog :=
  {| server.catalog := c; server.current_db := None; server.stderr := [];
     server.calls := [] |}.

(** [create(tbl,"grades",db1,<n>)]. *)
Definition create_grades (n : string) : cstr :=
  lit "create(tbl," ++ dquote :: lit "grades" ++ dquote :: lit ",db1,"
  ++ lit n ++ lit ")".

Definition select_between (low high handle : string) : DbOperator :=
  {| operator_fields :=
       select_operator (lit "db1.grades.score") (lit low) (lit high)
         (lit handle);
     client_fd := 4; context := None |}.

(** Three selections whose ranges start at 10, 3 and 7. *)
Definition three_selects : gmap positive DbOperator :=
  <[1%positive := select_between "10" "20" "s1"]>
    (<[2%positive := select_between "3" "5" "s2"]>
       (<[3%positive := select_between "7" "9" "s3"]> ∅)).

Definition no_junk : db_batch_queue.bqNode :=
  {| db_batch_queue.query := None; db_batch_queue.next := None;
     db_batch_queue.share_query_handle := [] |}.

(** Create the queue, then enqueue the selections 10, 3, 7. *)
Definition enqueue_10_3_7 : list db_batch_queue.op :=
  [ db_batch_queue.op_create true true no_junk;
    db_batch_queue.op_enqueue (Some 1%positive) true true;
    db_batch_queue.op_enqueue (Some 2%positive) true true;
    db_batch_queue.op_enqueue (Some 3%positive) true true ].

End samples.

(** ** The specification's wording of whitespace stripping

    "Leading/trailing whitespace is stripped": the ends only. *)

Definition strip_ends (s : cstr) : cstr :=
  rev (libc.skip_space (rev (libc.skip_space s))).

(** The fixed keyword set of the compiler, each with the length its
    [strncmp] compares. *)
Definition keywords : list (cstr * nat) :=
  [ (lit "create(db,", 10%nat); (lit "create(tbl,", 11%nat);
    (lit "create(col,", 11%nat); (lit "load(", 5%nat);
    (lit "relational_insert", 17%nat); (lit "shutdown", 8%nat) ].

(** A C integer used as a truth value. *)
Definition c_true (r : result Z) : Prop := exists z, r = Ok z /\ z <> 0.

(** ** Shape of a well-formed queue *)

Module shape.

Import db_batch_queue.

(** [lseg nds p l]: from [p], the [next] fields lead through exactly
    the addresses [l] and end at NULL. *)
Fixpoint lseg (nds : gmap addr bqNode) (p : option addr) (l : list addr)
  : Prop :=
  match l with
  | [] => p = None
  | a :: l => p = Some a /\ exists nd, nds !! a = Some nd /\ lseg nds (next nd) l
  end.

(** [queue_ok m Q l]: [Q] is a queue of [m] whose real nodes are [l],
    in order. The sentinel is allocated and is none of them; [tail] is
    the last real node, or the sentinel when there is none; [next] of
    the sentinel counts only when there is a real node. *)
Record queue_ok (m : memory) (Q : batchQueue) (l : list addr) : Prop := {
  sentinel_alloc : is_Some (nodes m !! head Q);
  tail_last : tail Q = List.last l (head Q);
  chain : l <> [] ->
          exists s, nodes m !! head Q = Some s /\ lseg (nodes m) (next s) l;
  distinct : NoDup (head Q :: l);
  counted : length Q = Z.of_nat (List.length l)
}.

(** Invariant of the runs: allocated nodes lie below the allocation
    pointer and a live [bq] is well formed. *)
Record inv (m : memory) : Prop := {
  below_brk : forall a, is_Some (nodes m !! a) -> (a < brk m)%positive;
  live_ok : forall q Q, bq m = Some q -> queues m !! q = Some Q ->
            exists l, queue_ok m Q l
}.

(** An operation the allocator serves in full and, for an enqueue, whose
    argument is a selection of [ops] with a handle that fits the copy
    [create_node] makes. *)
Definition well_served {abi : layout} (ops : gmap addr parse.DbOperator)
    (o : op) : Prop :=
  match o with
  | op_create ok_bq ok_node _ => ok_bq = true /\ ok_node = true
  | op_enqueue qry ok_node ok_handle =>
      ok_node = true /\ ok_handle = true
      /\ exists qa dbo col low high handle,
           qry = Some qa /\ ops !! qa = Some dbo
           /\ parse.operator_fields dbo
              = parse.select_operator col low high handle
           /\ Z.of_nat (List.length handle) <= sizeof_handle
  end.

End shape.

(** ** Further definitions *)

(** ** utils_func.c, in place

    The four trim functions as they run: on the buffer that holds the
    string, with the read index [i], the write index [current] and the
    final terminator. [keep] is the test of the loop body. *)

Module utils_func_in_place.

Fixpoint trim_loop (keep : ascii -> bool) (n : nat) (buf : list ascii)
    (str i current : nat) : list ascii * nat :=
  match n with
  | O => (buf, current)
  | S n =>
      match buf !! (str + i)%nat with
      | Some c =>
          if keep c
          then trim_loop keep n (<[(str + current)%nat := c]> buf) str (S i)
                 (S current)
          else trim_loop keep n buf str (S i) current
      | None => (buf, current)
      end
  end.

Definition trim (keep : ascii -> bool) (buf : list ascii) (str : nat)
  : list ascii :=
  let length := libc.to_int (Z.of_nat (cbuf.strlen buf str)) in
  let '(buf, current) := trim_loop keep (Z.to_nat length) buf str 0 0 in
  <[(str + current)%nat := NUL]> buf.

Definition keep_newline (c : ascii) : bool :=
  negb (bool_decide (c = ascii_of_nat 13) || bool_decide (c = newline)).
Definition keep_whitespace (c : ascii) : bool := negb (libc.isspace c).
Definition keep_parenthesis (c : ascii) : bool :=
  negb (bool_decide (c = "("%char) || bool_decide (c = ")"%char)).
Definition keep_quote (c : ascii) : bool := bool_decide (c <> dquote).

Definition trim_newline := trim keep_newline.
Definition trim_whitespace := trim keep_whitespace.
Definition trim_parenthesis := trim keep_parenthesis.
Definition trim_quote := trim keep_quote.

End utils_func_in_place.


(** [run], which works in the buffer, leaves at [pre] the string
    [value s] and touches nothing around the old string. *)
Definition trims_to (run : list ascii -> nat -> list ascii)
    (value : cstr -> cstr) (pre s rest : list ascii) : Prop :=
  let buf := run (pre ++ s ++ NUL :: rest) (List.length pre) in
  cbuf.c_string buf (List.length pre) = value s
  /\ exists stale,
       buf = pre ++ (value s ++ NUL :: stale) ++ rest
       /\ List.length (value s ++ NUL :: stale) = S (List.length s).

(** What may follow the last token a handler reads: nothing, or a
    comma and further text, which the handler never looks at. *)
Definition unread (rest : cstr) : Prop :=
  rest = [] \/ exists r, rest = ","%char :: r /\ NUL ∉ r.


(** The line the [printf] of [show_batch_query] writes for the
    selection at [q]. *)
Definition query_line (ops : gmap positive parse.DbOperator) (q : positive)
  : option cstr :=
  match parse.operator_fields <$> ops !! q with
  | Some (parse.select_operator select_col pre_range post_range _) =>
      Some (lit "query: " ++ select_col ++ lit ", " ++ pre_range
            ++ lit ", " ++ post_range ++ lit "." ++ [newline])
  | _ => None
  end.

(** * Properties *)

(** ** Whitespace and keyword matching *)

Section compiler.

Import parse.

Lemma trim_whitespace_filter (s : cstr) :
  utils_func.trim_whitespace s = filter (fun c => libc.isspace c = false) s.
Proof.
  induction s as [|c s IH]; [done|].
  cbn [utils_func.trim_whitespace]. rewrite filter_cons.
  destruct (libc.isspace c) eqn:E; cbn.
  - rewrite decide_False by done. exact IH.
  - rewrite decide_True by done. by rewrite IH.
Qed.

Lemma trim_whitespace_no_space (s : cstr) :
  Forall (fun c => libc.isspace c = false) (utils_func.trim_whitespace s).
Proof.
  rewrite trim_whitespace_filter. apply Forall_forall.
  intros c Hc. by apply list_elem_of_filter in Hc as [? _].
Qed.

Lemma parse_command_not_comment (s : cstr) (fd : Z)
    (ctx : option ClientContext) :
  libc.strncmp s (lit "--") 2 <> 0 ->
  parse_command s fd ctx
  = (OK_WAIT_FOR_RESPONSE,
     fields ← parse_keyword (utils_func.trim_whitespace (split_handle s).2);
     Ok (Some {| operator_fields := fields; client_fd := fd;
                 context := ctx |})).
Proof.
  intros Hc. unfold parse_command.
  apply Z.eqb_neq in Hc. rewrite Hc.
  by destruct (split_handle s).
Qed.

(** C8, as the code has it. Before keyword matching the compiler
    deletes every whitespace character of the command text (the text
    behind the handle, if any): leading, trailing and interior alike.
    The string matched holds no whitespace at all, is the command text
    with its whitespace filtered out, and the keyword chain runs on
    it. *)
Theorem parse_command_deletes_all_whitespace (s : cstr) (fd : Z)
    (ctx : option ClientContext) :
  libc.strncmp s (lit "--") 2 <> 0 ->
  let q := utils_func.trim_whitespace (split_handle s).2 in
  Forall (fun c => libc.isspace c = false) q
  /\ q = filter (fun c => libc.isspace c = false) (split_handle s).2
  /\ parse_command s fd ctx
     = (OK_WAIT_FOR_RESPONSE,
        fields ← parse_keyword q;
        Ok (Some {| operator_fields := fields; client_fd := fd;
                    context := ctx |})).
Proof.
  intros Hc q. split; [apply trim_whitespace_no_space|].
  split; [apply trim_whitespace_filter|].
  by apply parse_command_not_comment.
Qed.

Lemma parse_command_deletes_all_whitespace_witness :
  let s := lit " cre ate(db, a b ) " in
  libc.strncmp s (lit "--") 2 <> 0
  /\ utils_func.trim_whitespace (split_handle s).2 = lit "create(db,ab)"
  /\ parse_command s 4 None
     = (OK_WAIT_FOR_RESPONSE,
        Ok (Some {| operator_fields := create_db_operator (lit "ab");
                    client_fd := 4; context := None |})).
Proof.
  split; [by vm_compute|]. split; [reflexivity|].
  destruct (parse_command_deletes_all_whitespace
              (lit " cre ate(db, a b ) ") 4 None) as (_ & _ & ->);
    [by vm_compute|reflexivity].
Defined.

(** C8, counterexample. In [lo ad( "a b" )] the blanks inside the
    keyword and inside the quoted path are interior characters;
    stripping the two ends would keep them, the compiler deletes them
    and compiles the line as a load of the path [ab]. *)
Lemma interior_whitespace_is_deleted :
  let s := lit "lo ad( " ++ dquote :: lit "a b" ++ dquote :: lit " )" in
  strip_ends s = s
  /\ utils_func.trim_whitespace s <> strip_ends s
  /\ (parse_command s 4 None).2
     = Ok (Some {| operator_fields := load_operator (lit "ab");
                   client_fd := 4; context := None |}).
Proof. split; [reflexivity|]. split; [by vm_compute|reflexivity]. Qed.

(** ** Unknown commands *)

Lemma parse_keyword_unknown (q : cstr) :
  (forall kw n, (kw, n) ∈ keywords -> libc.strncmp q kw n <> 0) ->
  parse_keyword q = Ok (error_dbo error_command).
Proof.
  intros H. unfold parse_keyword.
  repeat match goal with
  | |- context [libc.strncmp q ?kw ?n =? 0] =>
      let E := fresh in
      assert ((libc.strncmp q kw n =? 0) = false) as E
        by (apply Z.eqb_neq, H; unfold keywords; set_solver);
      rewrite E; clear E
  end.
  reflexivity.
Qed.

(** C5, as the code has it. For every command line that is not a
    comment (does not begin with [--]) and whose text, handle removed
    and whitespace deleted, starts with none of the six keywords,
    compilation returns an Error operator carrying the newline-ended
    message "error command, please try again.\n", and dispatching that
    operator answers exactly that message and leaves the catalogue
    alone. *)
Theorem unknown_command_is_error {Catalog : Type}
    {manager : server.db_manager Catalog} (s : cstr) (fd : Z)
    (ctx : option ClientContext) (w : server.world Catalog) :
  libc.strncmp s (lit "--") 2 <> 0 ->
  (forall kw n, (kw, n) ∈ keywords ->
     libc.strncmp (utils_func.trim_whitespace (split_handle s).2) kw n <> 0) ->
  exists dbo,
    parse_command s fd ctx = (OK_WAIT_FOR_RESPONSE, Ok (Some dbo))
    /\ type dbo = ERROR_CMD
    /\ operator_fields dbo
       = err_cmd_operator (lit "error command, please try again." ++ [newline])
    /\ server.execute_DbOperator (Some dbo) w
       = Ok (lit "error command, please try again." ++ [newline], w).
Proof.
  intros Hc Hk.
  rewrite (parse_command_not_comment s fd ctx Hc).
  rewrite (parse_keyword_unknown _ Hk).
  eexists. split; [reflexivity|]. by repeat split.
Qed.

Lemma unknown_command_is_error_witness :
  exists dbo,
    parse_command (lit "badcommand(x,y)") 4 None
    = (OK_WAIT_FOR_RESPONSE, Ok (Some dbo))
    /\ type dbo = ERROR_CMD
    /\ operator_fields dbo
       = err_cmd_operator (lit "error command, please try again." ++ [newline])
    /\ server.execute_DbOperator (manager := samples.accepting) (Some dbo)
         (samples.idle ())
       = Ok (lit "error command, please try again." ++ [newline],
             samples.idle ()).
Proof.
  apply (unknown_command_is_error (manager := samples.accepting)
           (lit "badcommand(x,y)") 4 None (samples.idle ())).
  - by vm_compute.
  - intros kw n Hin. unfold keywords in Hin.
    repeat (apply elem_of_cons in Hin as [Hin|Hin];
            [injection Hin as -> ->; by vm_compute|]).
    by apply elem_of_nil in Hin.
Defined.

(** C5, counterexample. The line [--note] starts with none of the
    keywords, yet compiles to no operator at all; and the message an
    unknown command carries is not the bare sentence, it ends with a
    newline. *)
Lemma comment_line_is_not_an_error :
  (forall kw n, (kw, n) ∈ keywords ->
     libc.strncmp (utils_func.trim_whitespace (split_handle (lit "--note")).2)
       kw n <> 0)
  /\ parse_command (lit "--note") 4 None = (OK_DONE, Ok None)
  /\ (parse_command (lit "badcommand(x,y)") 4 None).2
     <> Ok (Some {| operator_fields :=
                      err_cmd_operator (lit "error command, please try again.");
                    client_fd := 4; context := None |}).
Proof.
  split; [|split; [reflexivity|by vm_compute]].
  intros kw n Hin. unfold keywords in Hin.
  repeat (apply elem_of_cons in Hin as [Hin|Hin];
          [injection Hin as -> ->; by vm_compute|]).
  by apply elem_of_nil in Hin.
Qed.

End compiler.

(** ** Column counts of [create(tbl,...)] *)

Section column_count.

Import parse.

(** Zero and text that is no number are refused. *)
Lemma create_tbl_rejects_zero_and_text :
  parse_keyword (samples.create_grades "0") = Ok (error_dbo wrong_column_number)
  /\ parse_keyword (samples.create_grades "two")
     = Ok (error_dbo wrong_column_number).
Proof. split; reflexivity. Qed.

(** What the test [column_cnt < 1] sees: the [int] of [atoi]
    converted to [size_t], which is below 1 for 0 only. *)
Lemma to_size_t_below_1 (z : Z) :
  (libc.to_size_t z <? 1) = true <-> z mod 2 ^ 64 = 0.
Proof.
  unfold libc.to_size_t. rewrite Z.ltb_lt.
  pose proof (Z.mod_pos_bound z (2 ^ 64) ltac:(lia)). lia.
Qed.

Lemma to_int_range (z : Z) : - 2 ^ 31 <= libc.to_int z < 2 ^ 31.
Proof.
  unfold libc.to_int.
  pose proof (Z.mod_pos_bound (z + 2 ^ 31) (2 ^ 32) ltac:(lia)). lia.
Qed.

(** Every count that [atoi] reads as negative passes the guard. *)
Lemma negative_count_passes_guard (s : cstr) :
  libc.atoi s < 0 -> (libc.to_size_t (libc.atoi s) <? 1) = false.
Proof.
  intros Hneg. unfold libc.atoi in *.
  pose proof (to_int_range (libc.strtol s)) as Hr.
  apply Z.ltb_ge. unfold libc.to_size_t.
  replace (libc.to_int (libc.strtol s))
    with ((libc.to_int (libc.strtol s) + 2 ^ 64) + (-1) * 2 ^ 64) by lia.
  rewrite Z.mod_add by lia. rewrite Z.mod_small; lia.
Qed.

(** C2, the failing input. [create(tbl,"grades",db1,-5)] has a column
    count below 1, and compiles to a CreateTable operator, not to an
    Error: [atoi] gives -5, the assignment to the [size_t] variable
    makes it 2^64 - 5, and [column_cnt < 1] is false. *)
Theorem create_tbl_accepts_negative_count :
  libc.atoi (lit "-5") = -5
  /\ parse_command (samples.create_grades "-5") 4 None
     = (OK_WAIT_FOR_RESPONSE,
        Ok (Some {| operator_fields :=
                      create_tbl_operator (lit "db1") (lit "db1.grades")
                        (2 ^ 64 - 5);
                    client_fd := 4; context := None |})).
Proof. split; reflexivity. Qed.

End column_count.

(** ** The closing-parenthesis check of the tokenising handlers *)

Section closing_parenthesis.

Import parse.

(** Whenever the last token is empty the index is -1, outside it. *)
Lemma empty_token_index (b : list ascii) (token : nat) :
  cbuf.c_string b token = [] ->
  last_char b token = -1 /\ ~ in_token b token (last_char b token).
Proof.
  intros E. unfold last_char, in_token, cbuf.strlen. rewrite E. cbn.
  split; [reflexivity|]. intros [H _]. by apply H.
Qed.

(** Where the last token is not empty the index is its last
    character. *)
Lemma last_char_in_token (b : list ascii) (token : nat) :
  (0 < cbuf.strlen b token)%nat ->
  Z.of_nat (cbuf.strlen b token) <= libc.INT_MAX ->
  in_token b token (last_char b token).
Proof.
  unfold in_token, last_char, libc.to_int, libc.INT_MAX. intros H1 H2.
  rewrite Z.mod_small by lia. lia.
Qed.

End closing_parenthesis.

(** ** Dispatch *)

Section dispatch.

Import parse server.
Context {Catalog : Type} {manager : db_manager Catalog}.

(** C6. Dispatching a Shutdown operator calls the persistence first
    and the three teardown functions after it, whatever the persistence
    returned; a failure of the persistence adds one line to the error
    log and nothing else; the response is always "persist all the data
    and shutdown the server.\n". *)
Theorem shutdown_persists_then_tears_down (fd : Z)
    (ctx : option ClientContext) (w : world Catalog) :
  let dbo := {| operator_fields := shutdown_operator; client_fd := fd;
                context := ctx |} in
  let persisted := persist_data_csv (catalog w) in
  exists w',
    execute_DbOperator (Some dbo) w
    = Ok (lit "persist all the data and shutdown the server." ++ [newline], w')
    /\ calls w'
       = calls w ++ [call_persist_data_csv; call_free_db_store;
                     call_free_tbl_store; call_free_col_store]
    /\ catalog w'
       = free_col_store (free_tbl_store (free_db_store persisted.2))
    /\ stderr w'
       = stderr w ++ (if persisted.1 =? 0 then []
                      else [lit "persist all the data failed." ++ [newline]])
    /\ current_db w' = current_db w.
Proof.
  intros dbo persisted. subst persisted. unfold execute_DbOperator. cbn.
  destruct (persist_data_csv (catalog w)) as [r cat]. cbn.
  eexists. split; [reflexivity|].
  destruct (r =? 0); cbn; rewrite <- ?app_assoc; cbn;
    repeat split; try reflexivity; by rewrite app_nil_r.
Qed.

(** A null operator has no [type] to read. *)
Lemma execute_null (w : world Catalog) :
  execute_DbOperator None w = Undefined.
Proof. reflexivity. Qed.

(** Every comment line reaches the dispatcher as a null operator. *)
Lemma comment_line_undefined (recv_buffer : list ascii) (fd : Z)
    (w : world Catalog) :
  libc.strncmp (libc.until_nul recv_buffer) (lit "--") 2 = 0 ->
  handle_command recv_buffer fd w = Undefined.
Proof.
  intros H. unfold handle_command, parse_command. by rewrite H.
Qed.

(** Dispatch is defined on every operator that exists. *)
Lemma execute_defined (dbo : DbOperator) (w : world Catalog) :
  exists response w', execute_DbOperator (Some dbo) w = Ok (response, w').
Proof.
  unfold execute_DbOperator.
  destruct (operator_fields dbo); cbn;
    repeat match goal with
    | |- context [let '(_, _) := ?e in _] => destruct e
    | |- context [match ?o with Some _ => _ | None => _ end] => destruct o
    | |- context [if ?b then _ else _] => destruct b
    end; eauto.
Qed.

(** C10, the failing input. For the comment line [--comment] the
    compiler returns no operator and [handle_client] hands that null
    pointer to [execute_DbOperator], whose first test reads
    [query->type]: the turn has no defined response. *)
Theorem comment_line_dereferences_null (fd : Z) (w : world Catalog) :
  parse_command (lit "--comment") fd None = (OK_DONE, Ok None)
  /\ execute_DbOperator None w = Undefined
  /\ handle_command (lit "--comment") fd w = Undefined.
Proof. repeat split. Qed.

End dispatch.

(** With a disk that fails, shutdown still tears the stores down and
    answers as ever. *)
Example shutdown_on_failing_disk :
  server.execute_DbOperator (manager := samples.failing_disk)
    (Some {| parse.operator_fields := parse.shutdown_operator;
             parse.client_fd := 4; parse.context := None |})
    (samples.idle [])
  = Ok (lit "persist all the data and shutdown the server." ++ [newline],
        {| server.catalog := ["persist"; "free db"; "free tbl"; "free col"]%string;
           server.current_db := None;
           server.stderr := [lit "persist all the data failed." ++ [newline]];
           server.calls := [server.call_persist_data_csv;
                            server.call_free_db_store;
                            server.call_free_tbl_store;
                            server.call_free_col_store] |}).
Proof. reflexivity. Qed.

(** ** The batch queue *)

Section queue_shape.

Import parse db_batch_queue shape.

Lemma lseg_allocated (nds : gmap addr bqNode) (l : list addr)
    (p : option addr) (a : addr) :
  lseg nds p l -> a ∈ l -> is_Some (nds !! a).
Proof.
  revert p. induction l as [|b l IH]; intros p H Hin.
  - by apply elem_of_nil in Hin.
  - destruct H as (_ & nd & Hb & Hl).
    apply elem_of_cons in Hin as [->|Hin]; [by exists nd|by eapply IH].
Qed.

(** Writing a node that is not on the segment leaves the segment. *)
Lemma lseg_frame (nds : gmap addr bqNode) (l : list addr) (p : option addr)
    (a : addr) (nd : bqNode) :
  lseg nds p l -> a ∉ l -> lseg (<[a := nd]> nds) p l.
Proof.
  revert p. induction l as [|b l IH]; intros p H Hout; [done|].
  destruct H as (-> & nb & Hb & Hl).
  apply not_elem_of_cons in Hout as [Hab Hout].
  split; [done|]. exists nb. split; [by rewrite lookup_insert_ne|by apply IH].
Qed.

(** Linking a node that ends a chain behind the last node of a
    segment extends the segment by that node. *)
Lemma lseg_snoc (nds : gmap addr bqNode) (l : list addr) (p : option addr)
    (t n : addr) (t' nn : bqNode) :
  lseg nds p (l ++ [t]) -> NoDup (l ++ [t]) -> n ∉ l ++ [t] ->
  nds !! n = Some nn -> next nn = None -> next t' = Some n ->
  lseg (<[t := t']> nds) p ((l ++ [t]) ++ [n]).
Proof.
  intros H Hnd Hn Hnn Hnil Ht'. revert p H Hnd Hn.
  induction l as [|b l IH]; intros p H Hnd Hn; cbn in *.
  - destruct H as (-> & _ & _ & _).
    apply not_elem_of_cons in Hn as [Hnt _].
    split; [done|]. exists t'. rewrite lookup_insert_eq. split; [done|].
    rewrite Ht'. split; [done|]. exists nn.
    rewrite lookup_insert_ne by done. by rewrite Hnil.
  - destruct H as (-> & nb & Hb & Hl).
    apply NoDup_cons in Hnd as [Hbl Hnd].
    apply not_elem_of_cons in Hn as [_ Hn].
    split; [done|]. exists nb. split.
    + rewrite lookup_insert_ne; [done|]. intros ->. apply Hbl. set_solver.
    + by apply IH.
Qed.

(** The loop visits a segment node by node. *)
Lemma walk_lseg {A : Type} (m : memory) (visit : addr -> bqNode -> result A)
    (l : list addr) (xs : list A) (p : option addr) (fuel : nat) :
  lseg (nodes m) p l ->
  Forall2 (fun a x => forall nd, nodes m !! a = Some nd -> visit a nd = Ok x)
    l xs ->
  (List.length l < fuel)%nat ->
  walk fuel m visit p = Ok xs.
Proof.
  intros H HF. revert p fuel H.
  induction HF as [|a x l xs Hax HF IH]; intros p fuel H Hfuel.
  - cbn in H. subst p. by destruct fuel.
  - destruct H as (-> & nd & Ha & Hl).
    destruct fuel as [|fuel]; [cbn in Hfuel; lia|].
    cbn. rewrite Ha. rewrite (Hax nd Ha). cbn.
    rewrite (IH (next nd) fuel Hl); [done|]. cbn in Hfuel. lia.
Qed.

Lemma last_in_nonempty (l : list addr) (d : addr) :
  l <> [] -> List.last l d ∈ l.
Proof.
  intros Hl. destruct (exists_last Hl) as (l0 & t & ->).
  rewrite List.last_last. set_solver.
Qed.

(** In a well-formed queue [head == tail] says there is no real node. *)
Lemma head_is_tail_iff (m : memory) (Q : batchQueue) (l : list addr) :
  queue_ok m Q l -> head Q = tail Q <-> l = [].
Proof.
  intros H. split.
  - intros E. destruct l as [|a l]; [done|]. exfalso.
    pose proof (distinct _ _ _ H) as Hnd. apply NoDup_cons in Hnd as [Hh _].
    apply Hh. rewrite E, (tail_last _ _ _ H). by apply last_in_nonempty.
  - intros ->. by rewrite (tail_last _ _ _ H).
Qed.

(** The traversal of a well-formed queue visits its real nodes. *)
Lemma traverse_queue_ok {A : Type} (m : memory) (q : addr) (Q : batchQueue)
    (l : list addr) (visit : addr -> bqNode -> result A) (xs : list A)
    (fuel : nat) :
  bq m = Some q -> queues m !! q = Some Q -> queue_ok m Q l ->
  Forall2 (fun a x => forall nd, nodes m !! a = Some nd -> visit a nd = Ok x)
    l xs ->
  (List.length l < fuel)%nat ->
  traverse fuel m visit = Ok xs.
Proof.
  intros Hbq HQ Hok HF Hfuel. unfold traverse, is_bq_empty.
  rewrite Hbq, HQ. destruct (decide (head Q = tail Q)) as [E|E]; cbn.
  - apply (head_is_tail_iff _ _ _ Hok) in E. subst l.
    by apply Forall2_nil_inv_l in HF as ->.
  - assert (l <> []) as Hl by (by rewrite <- (head_is_tail_iff _ _ _ Hok)).
    destruct (chain _ _ _ Hok Hl) as (s & Hs & Hseg). rewrite Hs.
    by eapply walk_lseg.
Qed.

End queue_shape.

Section queue_runs.

Import parse db_batch_queue shape.
Context {abi : layout}.

(** What a successful [create_node] leaves. *)
Lemma create_node_some (qry : option addr) (ok_node ok_handle : bool)
    (m m1 : memory) (n : addr) :
  create_node qry ok_node ok_handle m = Ok (Some n, m1) ->
  exists q dbo col low high handle,
    qry = Some q /\ operators m !! q = Some dbo
    /\ operator_fields dbo = select_operator col low high handle
    /\ Z.of_nat (List.length handle) <= sizeof_handle
    /\ ok_node = true
    /\ n = brk m
    /\ m1 = {| operators := operators m;
               nodes := <[n := {| query := qry; next := None;
                                  share_query_handle := handle |}]> (nodes m);
               queues := queues m; brk := Pos.succ (Pos.succ (brk m));
               bq := bq m; stderr := stderr m |}.
Proof.
  unfold create_node, malloc.
  destruct ok_node; [|intros [=]].
  destruct ok_handle; cbn.
  2:{ destruct qry as [q|]; [|done].
      destruct (operators m !! q) as [dbo|]; [|done]. cbn.
      by destruct (operator_fields dbo). }
  destruct qry as [q|]; [|done].
  destruct (operators m !! q) as [dbo|] eqn:Hq; [|done]. cbn.
  destruct (operator_fields dbo) as [| | | |col low high handle| |] eqn:Hf;
    try done.
  unfold strcpy.
  destruct (Z.of_nat (List.length handle) + 1 <=? (sizeof_handle + 1) * 1)
    eqn:Hlen; [|done].
  cbn. intros [= <- <-].
  exists q, dbo, col, low, high, handle.
  apply Z.leb_le in Hlen. repeat split; try done. lia.
Qed.

Lemma create_node_null (qry : option addr) (ok_node ok_handle : bool)
    (m m1 : memory) :
  create_node qry ok_node ok_handle m = Ok (None, m1) ->
  ok_node = false
  /\ m1 = log_err (lit "create batch queue node failed." ++ [newline]) m.
Proof.
  unfold create_node, malloc.
  destruct ok_node; [|by intros [= <-]].
  destruct ok_handle; cbn;
    (destruct qry as [q|]; [|done]);
    (destruct (operators m !! q) as [dbo|]; [|done]); cbn;
    (destruct (operator_fields dbo); try done);
    unfold strcpy;
    match goal with |- context [if ?b then _ else _] => destruct b end;
    done.
Qed.


(** Linking a node that is new to the heap behind the tail of a
    well-formed queue: the real nodes are the old ones and then the new
    one. *)
Lemma add_batch_queue_fresh (m m1 m2 : memory) (q n : addr) (Q : batchQueue)
    (l : list addr) (nn : bqNode) (r : Z) :
  bq m = Some q -> queues m !! q = Some Q -> queue_ok m Q l ->
  nodes m !! n = None -> next nn = None ->
  bq m1 = bq m -> queues m1 = queues m -> nodes m1 = <[n := nn]> (nodes m) ->
  add_batch_queue (Some n) m1 = Ok (r, m2) ->
  r = 0
  /\ exists Q' t,
       nodes m !! tail Q = Some t
       /\ Q' = {| head := head Q; tail := n; length := length Q + 1 |}
       /\ m2 = set_queues <[q := Q']>
                 (set_nodes <[tail Q := {| query := query t; next := Some n;
                                           share_query_handle :=
                                             share_query_handle t |}]> m1)
       /\ queue_ok m2 Q' (l ++ [n]).
Proof.
  intros Hbq HQ Hok Hfresh Hnil Hbq1 Hq1 Hn1.
  unfold add_batch_queue. rewrite Hbq1, Hbq, Hq1, HQ.
  assert (n <> head Q) as Hnh.
  { intros ->. destruct (sentinel_alloc _ _ _ Hok) as [? E]. congruence. }
  assert (n ∉ l) as Hnl.
  { intros Hin. destruct l as [|a l']; [by apply elem_of_nil in Hin|].
    destruct (chain _ _ _ Hok) as (s & _ & Hseg); [done|].
    destruct (lseg_allocated _ _ _ _ Hseg Hin) as [? E]. congruence. }
  assert (n <> tail Q) as Hnt.
  { rewrite (tail_last _ _ _ Hok). destruct l as [|a l']; [done|].
    intros E. apply Hnl. rewrite E. by apply last_in_nonempty. }
  rewrite Hn1, lookup_insert_ne by done.
  destruct (nodes m !! tail Q) as [t|] eqn:Ht; [|done].
  destruct (length Q =? length_max) eqn:Hmax; [done|].
  apply Z.eqb_neq in Hmax. intros [= <- <-]. split; [done|].
  eexists _, t. split; [done|]. split; [reflexivity|]. split; [reflexivity|].
  pose proof (distinct _ _ _ Hok) as Hnd.
  apply NoDup_cons in Hnd as [Hhl Hndl].
  constructor; cbn.
  - rewrite Hn1. destruct (decide (tail Q = head Q)) as [->|Hth].
    + rewrite lookup_insert_eq. by eexists.
    + rewrite !lookup_insert_ne by done. apply (sentinel_alloc _ _ _ Hok).
  - by rewrite List.last_last.
  - intros _. rewrite Hn1. destruct (decide (l = [])) as [->|Hl].
    + rewrite (tail_last _ _ _ Hok). cbn. eexists.
      rewrite lookup_insert_eq. split; [done|]. cbn.
      split; [done|]. exists nn.
      rewrite lookup_insert_ne, lookup_insert_eq by done. by rewrite Hnil.
    + destruct (chain _ _ _ Hok Hl) as (s & Hs & Hseg).
      assert (tail Q <> head Q) as Hth.
      { rewrite (tail_last _ _ _ Hok). intros E. apply Hhl. rewrite <- E.
        by apply last_in_nonempty. }
      exists s. split; [by rewrite !lookup_insert_ne|].
      destruct (exists_last Hl) as (l0 & tl & El).
      assert (tail Q = tl) as Et by
        (by rewrite (tail_last _ _ _ Hok), El, List.last_last).
      rewrite Et. subst l.
      apply lseg_snoc with (nn := nn); try done.
      * by apply lseg_frame.
      * by rewrite lookup_insert_eq.
  - apply NoDup_cons. split.
    + intros [Hin|Hin]%elem_of_app; [done|].
      apply list_elem_of_singleton in Hin. congruence.
    + apply NoDup_app. split; [done|]. split; [|apply NoDup_singleton].
      intros a Ha Hin. apply list_elem_of_singleton in Hin. congruence.
  - rewrite (counted _ _ _ Hok), length_app. cbn. lia.
Qed.


(** *** Enqueue on a live, well-formed queue *)

Lemma fresh_at_brk (m : memory) :
  inv m -> nodes m !! brk m = None.
Proof.
  intros Hinv. destruct (nodes m !! brk m) eqn:E; [|done].
  pose proof (below_brk _ Hinv (brk m) ltac:(by eexists)). lia.
Qed.

(** An enqueue that returns 0 puts the new node, allocated at the
    allocation pointer, behind all real nodes; the sentinel stays. *)
Lemma enqueue_appends (m m' : memory) (q : addr) (Q : batchQueue)
    (l : list addr) (qry : option addr) (ok_node ok_handle : bool) (r : Z) :
  inv m -> bq m = Some q -> queues m !! q = Some Q -> queue_ok m Q l ->
  enqueue qry ok_node ok_handle m = Ok (r, m') ->
  bq m' = Some q
  /\ operators m' = operators m
  /\ ((r = 1 /\ ok_node = false /\ queues m' = queues m /\ nodes m' = nodes m
       /\ brk m' = brk m)
      \/ (r = 0 /\ ok_node = true
          /\ exists Q', queues m' !! q = Some Q'
               /\ head Q' = head Q /\ tail Q' = brk m
               /\ length Q' = length Q + 1
               /\ brk m' = Pos.succ (Pos.succ (brk m))
               /\ (forall a, is_Some (nodes m' !! a)
                             <-> a = brk m \/ is_Some (nodes m !! a))
               /\ (forall a nd, nodes m !! a = Some nd ->
                     exists nd', nodes m' !! a = Some nd'
                       /\ query nd' = query nd
                       /\ share_query_handle nd' = share_query_handle nd)
               /\ (exists qa dbo col low high handle,
                     qry = Some qa /\ operators m !! qa = Some dbo
                     /\ operator_fields dbo = select_operator col low high handle
                     /\ Z.of_nat (List.length handle) <= sizeof_handle
                     /\ exists nd, nodes m' !! brk m = Some nd
                          /\ query nd = qry
                          /\ share_query_handle nd = handle)
               /\ queue_ok m' Q' (l ++ [brk m]))).
Proof.
  intros Hinv Hbq HQ Hok. unfold enqueue.
  destruct (create_node qry ok_node ok_handle m) as [[[n|] m1]| |] eqn:Hc;
    cbn; try done.
  - apply create_node_some in Hc
      as (qa & dbo & col & low & high & handle & -> & Hop & Hf & Hlen & -> & -> & ->).
    intros Hadd.
    eapply (add_batch_queue_fresh m _ m' q (brk m) Q l) in Hadd
      as (-> & Q' & t & Ht & -> & -> & Hok');
      eauto using fresh_at_brk; try done.
    cbn. split; [done|]. split; [done|]. right.
    split; [done|]. split; [done|].
    eexists. rewrite lookup_insert_eq. split; [done|]. cbn.
    do 4 (split; [done|]).
    assert (brk m <> tail Q) as Hbt.
    { intros E. rewrite <- E in Ht. by rewrite (fresh_at_brk m Hinv) in Ht. }
    split; [|split; [|split; [|exact Hok']]].
    2:{ intros a nd Ha. destruct (decide (a = tail Q)) as [->|Hat].
        - rewrite lookup_insert_eq. eexists. split; [done|]. cbn.
          rewrite Ht in Ha. by injection Ha as <-.
        - rewrite lookup_insert_ne by done.
          rewrite lookup_insert_ne by (intros <-; by rewrite (fresh_at_brk m Hinv) in Ha).
          by exists nd. }
    2:{ exists qa, dbo, col, low, high, handle. do 4 (split; [done|]).
        eexists. rewrite lookup_insert_ne, lookup_insert_eq by done. done. }
    intros a. split.
    + intros [x Hx]. destruct (decide (a = tail Q)) as [->|Hat]; [right; by eexists|].
      rewrite lookup_insert_ne in Hx by done.
      destruct (decide (a = brk m)) as [->|Hab]; [by left|].
      rewrite lookup_insert_ne in Hx by done. right. by eexists.
    + intros [->|[x Hx]].
      * destruct (decide (brk m = tail Q)) as [E|E].
        { rewrite <- E, lookup_insert_eq. by eexists. }
        rewrite lookup_insert_ne, lookup_insert_eq by done. by eexists.
      * destruct (decide (a = tail Q)) as [->|Hat].
        { rewrite lookup_insert_eq. by eexists. }
        rewrite lookup_insert_ne by done.
        destruct (decide (a = brk m)) as [->|Hab].
        { rewrite lookup_insert_eq. by eexists. }
        rewrite lookup_insert_ne by done. by eexists.
  - apply create_node_null in Hc as [-> ->].
    unfold add_batch_queue. cbn. rewrite Hbq. intros [= <- <-]. cbn.
    split; [done|]. split; [done|]. left. by repeat split.
Qed.


(** *** The invariant along a run *)

Lemma inv_start (ops : gmap addr DbOperator) : inv (start ops).
Proof.
  constructor; cbn.
  - intros a [x Hx]. by rewrite lookup_empty in Hx.
  - done.
Qed.

Lemma inv_log_err (line : cstr) (m : memory) : inv m -> inv (log_err line m).
Proof.
  intros [H1 H2]. constructor; cbn; [done|].
  intros q Q Hq HQ. destruct (H2 q Q Hq HQ) as [l Hok].
  exists l. by destruct Hok.
Qed.

Lemma inv_create_batch_queue (ok_bq ok_node : bool) (junk : bqNode)
    (m : memory) :
  inv m -> inv (create_batch_queue ok_bq ok_node junk m).2.
Proof.
  intros [H1 H2]. unfold create_batch_queue, malloc.
  destruct ok_bq; cbn; [|by constructor].
  destruct ok_node; cbn.
  - constructor; cbn.
    + intros a [x Hx]. destruct (decide (a = Pos.succ (brk m))) as [->|Ha]; [lia|].
      rewrite lookup_insert_ne in Hx by done.
      pose proof (H1 a ltac:(by eexists)). lia.
    + intros q Q [= <-]. rewrite lookup_insert_eq. intros [= <-].
      exists []. constructor; cbn; try done.
      * rewrite lookup_insert_eq. by eexists.
      * apply NoDup_singleton.
  - constructor; cbn.
    + intros a Ha. pose proof (H1 a Ha). lia.
    + intros q Q [= <-]. by rewrite lookup_delete_eq.
Qed.

Lemma inv_enqueue (qry : option addr) (ok_node ok_handle : bool)
    (m m' : memory) (r : Z) :
  inv m -> enqueue qry ok_node ok_handle m = Ok (r, m') -> inv m'.
Proof.
  intros Hinv He.
  destruct (bq m) as [q|] eqn:Hbq.
  - destruct (queues m !! q) as [Q|] eqn:HQ.
    + destruct (live_ok _ Hinv q Q Hbq HQ) as [l Hok].
      destruct (enqueue_appends _ _ _ _ _ _ _ _ _ Hinv Hbq HQ Hok He)
        as (Hbq' & _ & [(_ & _ & Hq' & Hn' & Hb')|(_ & _ & Q' & HQ' & _ & _ & _ & Hb' & Hdom & _ & _ & Hok')]).
      * constructor.
        -- rewrite Hn', Hb'. apply (below_brk _ Hinv).
        -- intros q0 Q0. rewrite Hbq', Hq'. intros [= <-] HQ0.
           assert (Q0 = Q) as -> by congruence.
           exists l. destruct Hok. constructor; by rewrite ?Hn'.
      * constructor.
        -- intros a Ha. apply Hdom in Ha as [->|Ha]; [lia|].
           pose proof (below_brk _ Hinv a Ha). lia.
        -- intros q0 Q0. rewrite Hbq'. intros [= <-] HQ0.
           assert (Q0 = Q') as -> by congruence. by eexists.
    + unfold enqueue in He.
      destruct (create_node qry ok_node ok_handle m) as [[[n|] m1]| |] eqn:Hc;
        cbn in He; try done.
      * apply create_node_some in Hc
          as (? & ? & ? & ? & ? & ? & _ & _ & _ & _ & _ & _ & ->).
        unfold add_batch_queue in He. cbn in He. by rewrite Hbq, HQ in He.
      * apply create_node_null in Hc as [_ ->].
        unfold add_batch_queue in He. cbn in He. rewrite Hbq in He.
        injection He as <- <-. by do 2 apply inv_log_err.
  - unfold enqueue in He.
    destruct (create_node qry ok_node ok_handle m) as [[[n|] m1]| |] eqn:Hc;
      cbn in He; try done.
    + apply create_node_some in Hc
        as (? & ? & ? & ? & ? & ? & _ & _ & _ & _ & _ & -> & ->).
      unfold add_batch_queue in He. cbn in He. rewrite Hbq in He.
      injection He as <- <-. constructor; cbn; [|intros ? ? ?; congruence].
      intros a [nd Hnd]. destruct (decide (a = brk m)) as [->|Ha]; [lia|].
      rewrite lookup_insert_ne in Hnd by done.
      pose proof (below_brk _ Hinv a ltac:(by eexists)). lia.
    + apply create_node_null in Hc as [_ ->].
      unfold add_batch_queue in He. cbn in He. rewrite Hbq in He.
      injection He as <- <-. by do 2 apply inv_log_err.
Qed.

Lemma inv_step (o : op) (m m' : memory) : inv m -> step o m = Ok m' -> inv m'.
Proof.
  intros Hinv. destruct o as [ok_bq ok_node junk|qry ok_node ok_handle]; cbn.
  - intros [= <-]. by apply inv_create_batch_queue.
  - destruct (enqueue qry ok_node ok_handle m) as [[r m1]| |] eqn:He; cbn;
      try done.
    intros [= <-]. by eapply inv_enqueue.
Qed.

Lemma inv_run (program : list op) (m m' : memory) :
  inv m -> run program m = Ok m' -> inv m'.
Proof.
  revert m. induction program as [|o program IH]; intros m Hinv; cbn.
  - by intros [= <-].
  - destruct (step o m) as [m1| |] eqn:Hs; cbn; try done.
    apply IH. by eapply inv_step.
Qed.


(** *** Reading the queue back *)

Lemma walk_lseg_inv {A : Type} (m : memory)
    (visit : addr -> bqNode -> result A) (l : list addr) (xs : list A)
    (p : option addr) (fuel : nat) :
  lseg (nodes m) p l -> walk fuel m visit p = Ok xs ->
  Forall2 (fun a x => exists nd, nodes m !! a = Some nd /\ visit a nd = Ok x)
    l xs.
Proof.
  revert xs p fuel. induction l as [|a l IH]; intros xs p fuel H Hw.
  - cbn in H. subst p. destruct fuel; cbn in Hw; injection Hw as <-;
      constructor.
  - destruct H as (-> & nd & Ha & Hl).
    destruct fuel as [|fuel]; [done|]. cbn in Hw. rewrite Ha in Hw.
    destruct (visit a nd) as [x| |] eqn:Hv; cbn in Hw; try done.
    destruct (walk fuel m visit (next nd)) as [rest| |] eqn:Hr; cbn in Hw;
      try done.
    injection Hw as <-. constructor; [by exists nd|by eapply IH].
Qed.

Lemma traverse_queue_ok_inv {A : Type} (m : memory) (q : addr)
    (Q : batchQueue) (l : list addr) (visit : addr -> bqNode -> result A)
    (xs : list A) (fuel : nat) :
  bq m = Some q -> queues m !! q = Some Q -> queue_ok m Q l ->
  traverse fuel m visit = Ok xs ->
  Forall2 (fun a x => exists nd, nodes m !! a = Some nd /\ visit a nd = Ok x)
    l xs.
Proof.
  intros Hbq HQ Hok. unfold traverse, is_bq_empty. rewrite Hbq, HQ.
  destruct (decide (head Q = tail Q)) as [E|E]; cbn.
  - apply (head_is_tail_iff _ _ _ Hok) in E as ->. intros [= <-]. constructor.
  - assert (l <> []) as Hl by (by rewrite <- (head_is_tail_iff _ _ _ Hok)).
    destruct (chain _ _ _ Hok Hl) as (s & -> & Hseg). by apply walk_lseg_inv.
Qed.

(** What holds of the round trip: a selection whose handle fits the
    copy made by [create_node] is read back, range and handle, behind
    the selections queued before it, which read as they did. *)
Lemma enqueue_then_read (m m' : memory) (q : addr) (Q : batchQueue)
    (qry : option addr) (ok_node ok_handle : bool)
    (xs : list (cstr * cstr * cstr)) (fuel : nat) :
  inv m -> bq m = Some q -> queues m !! q = Some Q ->
  queue_selects fuel m = Ok xs ->
  enqueue qry ok_node ok_handle m = Ok (0, m') ->
  exists qa dbo col low high handle,
    qry = Some qa /\ operators m !! qa = Some dbo
    /\ operator_fields dbo = select_operator col low high handle
    /\ Z.of_nat (List.length handle) <= sizeof_handle
    /\ forall fuel', (List.length xs + 1 < fuel')%nat ->
         queue_selects fuel' m' = Ok (xs ++ [(low, high, handle)]).
Proof.
  intros Hinv Hbq HQ Hxs He.
  destruct (live_ok _ Hinv q Q Hbq HQ) as [l Hok].
  destruct (enqueue_appends _ _ _ _ _ _ _ _ _ Hinv Hbq HQ Hok He)
    as (Hbq' & Hops & [(? & _)|(_ & _ & Q' & HQ' & _ & _ & _ & _ & _ & Hold
                                & Hnew & Hok')]); [done|].
  destruct Hnew as (qa & dbo & col & low & high & handle & -> & Hop & Hf
                    & Hlen & nd & Hnd & Hqnd & Hhnd).
  exists qa, dbo, col, low, high, handle. do 4 (split; [done|]).
  intros fuel' Hfuel.
  pose proof (traverse_queue_ok_inv _ _ _ _ _ _ _ Hbq HQ Hok Hxs) as HF.
  pose proof (Forall2_length _ _ _ HF) as Hlenl.
  eapply traverse_queue_ok; eauto.
  - apply Forall2_app.
    + eapply Forall2_impl; [exact HF|]. cbn.
      intros a x (na & Ha & Hr) na' Ha'.
      destruct (Hold a na Ha) as (nb & Hb & Hq1 & Hh1).
      assert (na' = nb) as -> by congruence.
      unfold read_select in *. rewrite Hq1, Hh1, Hops. exact Hr.
    + constructor; [|constructor]. intros nd' Hnd'.
      assert (nd' = nd) as -> by congruence.
      unfold read_select. rewrite Hqnd, Hops, Hop. cbn. by rewrite Hf, Hhnd.
  - rewrite length_app. cbn. lia.
Qed.

End queue_runs.

(** *** Runs that return *)

Section queue_total.

Import parse db_batch_queue shape.
Context {abi : layout}.

Lemma tail_allocated (m : memory) (Q : batchQueue) (l : list addr) :
  queue_ok m Q l -> is_Some (nodes m !! tail Q).
Proof.
  intros Hok. rewrite (tail_last _ _ _ Hok).
  destruct (decide (l = [])) as [->|Hl]; [apply (sentinel_alloc _ _ _ Hok)|].
  destruct (chain _ _ _ Hok Hl) as (s & _ & Hseg).
  eapply lseg_allocated; [exact Hseg|]. by apply last_in_nonempty.
Qed.

Lemma create_node_defined (m : memory) (qa : addr) (dbo : DbOperator)
    (col low high handle : cstr) :
  operators m !! qa = Some dbo ->
  operator_fields dbo = select_operator col low high handle ->
  Z.of_nat (List.length handle) <= sizeof_handle ->
  exists m1, create_node (Some qa) true true m = Ok (Some (brk m), m1).
Proof.
  intros Hop Hf Hlen. unfold create_node, malloc. cbn. rewrite Hop. cbn.
  rewrite Hf. unfold strcpy.
  destruct (Z.of_nat (List.length handle) + 1 <=? (sizeof_handle + 1) * 1)
    eqn:E; [by eexists|].
  apply Z.leb_gt in E. lia.
Qed.

(** An enqueue served by the allocator, of a selection whose handle
    fits, returns: with 1 when there is no queue, with 0 on a live
    queue whose counter can still grow. *)
Lemma enqueue_defined (m : memory) (qry : option addr)
    (ok_node ok_handle : bool) :
  inv m -> well_served (operators m) (op_enqueue qry ok_node ok_handle) ->
  (forall q, bq m = Some q ->
     exists Q, queues m !! q = Some Q /\ length Q < length_max) ->
  exists r m', enqueue qry ok_node ok_handle m = Ok (r, m').
Proof.
  intros Hinv (-> & -> & qa & dbo & col & low & high & handle & -> & Hop & Hf
               & Hlen) Hlive.
  destruct (create_node_defined m qa dbo col low high handle Hop Hf Hlen)
    as [m1 Hc].
  unfold enqueue. rewrite Hc. cbn.
  apply create_node_some in Hc
    as (? & ? & ? & ? & ? & ? & _ & _ & _ & _ & _ & _ & ->).
  unfold add_batch_queue. cbn.
  destruct (bq m) as [q|] eqn:Hbq; [|by eexists _, _].
  destruct (Hlive q eq_refl) as (Q & HQ & Hmax). rewrite HQ.
  destruct (live_ok _ Hinv q Q Hbq HQ) as [l Hok].
  destruct (tail_allocated _ _ _ Hok) as [t Ht].
  rewrite lookup_insert_ne
    by (intros E; rewrite <- E in Ht; by rewrite (fresh_at_brk m Hinv) in Ht).
  rewrite Ht.
  destruct (length Q =? length_max) eqn:E; [apply Z.eqb_eq in E; lia|].
  by eexists _, _.
Qed.

Lemma run_defined_from (program : list op) (m : memory) :
  inv m -> Forall (well_served (operators m)) program ->
  Z.of_nat (List.length program) <= length_max ->
  (forall q, bq m = Some q ->
     exists Q, queues m !! q = Some Q
       /\ length Q + Z.of_nat (List.length program) <= length_max) ->
  exists m', run program m = Ok m'.
Proof.
  revert m. induction program as [|o program IH]; intros m Hinv Hall Hlen Hlive.
  - by eexists.
  - apply Forall_cons in Hall as [Ho Hall]. cbn [List.length] in *.
    destruct o as [ok_bq ok_node junk|qry ok_node ok_handle].
    + destruct Ho as [-> ->]. cbn.
      apply IH.
      * exact (inv_create_batch_queue true true junk m Hinv).
      * exact Hall.
      * lia.
      * cbn. intros q [= <-]. eexists. rewrite lookup_insert_eq.
        split; [done|]. cbn. lia.
    + destruct (enqueue_defined m qry ok_node ok_handle Hinv Ho)
        as (r & m' & He).
      { intros q Hq. destruct (Hlive q Hq) as (Q & HQ & Hb).
        exists Q. split; [done|]. lia. }
      cbn. rewrite He. cbn.
      pose proof (inv_enqueue _ _ _ _ _ _ Hinv He) as Hinv'.
      destruct (bq m) as [q|] eqn:Hbq.
      * destruct (Hlive q eq_refl) as (Q & HQ & Hb).
        destruct (live_ok _ Hinv q Q Hbq HQ) as [l Hok].
        destruct (enqueue_appends _ _ _ _ _ _ _ _ _ Hinv Hbq HQ Hok He)
          as (Hbq' & Hops & [(_ & _ & Hq' & _)
                            |(_ & _ & Q' & HQ' & _ & _ & HL & _)]).
        -- apply IH; [done|by rewrite Hops|lia|].
           intros q0. rewrite Hbq', Hq'. intros [= <-].
           exists Q. split; [done|]. lia.
        -- apply IH; [done|by rewrite Hops|lia|].
           intros q0. rewrite Hbq'. intros [= <-].
           exists Q'. split; [done|]. lia.
      * unfold enqueue in He.
        destruct (create_node qry ok_node ok_handle m) as [[[n|] m1]| |] eqn:Hc;
          cbn in He; try done.
        -- apply create_node_some in Hc
             as (? & ? & ? & ? & ? & ? & _ & _ & _ & _ & _ & _ & ->).
           unfold add_batch_queue in He. cbn in He. rewrite Hbq in He.
           injection He as <- <-.
           apply IH; [done|done|lia|]. cbn. intros q0 Hq0. congruence.
        -- apply create_node_null in Hc as [_ ->].
           unfold add_batch_queue in He. cbn in He. rewrite Hbq in He.
           injection He as <- <-.
           apply IH; [done|done|lia|]. cbn. intros q0 Hq0. congruence.
Qed.

(** Runs return: when the allocator serves every request and every
    enqueue wraps a selection whose handle fits the copy, a program of
    at most [length_max] operations reaches a state. *)
Lemma run_defined (ops : gmap addr DbOperator) (program : list op) :
  Forall (well_served ops) program ->
  Z.of_nat (List.length program) <= length_max ->
  exists m, run program (start ops) = Ok m.
Proof.
  intros Hall Hlen. apply run_defined_from; [apply inv_start|done|done|done].
Qed.

(** A handle of more than [sizeof_handle] characters never fits the
    copy. *)
Lemma create_node_long_handle (m : memory) (qa : addr) (dbo : DbOperator)
    (col low high handle : cstr) (ok_handle : bool) :
  operators m !! qa = Some dbo ->
  operator_fields dbo = select_operator col low high handle ->
  sizeof_handle < Z.of_nat (List.length handle) ->
  create_node (Some qa) true ok_handle m = Undefined.
Proof.
  intros Hop Hf Hlen. unfold create_node, malloc.
  destruct ok_handle; cbn; rewrite Hop; cbn; rewrite Hf; [|done].
  unfold strcpy.
  destruct (Z.of_nat (List.length handle) + 1 <=? (sizeof_handle + 1) * 1)
    eqn:E; [|done].
  apply Z.leb_le in E. lia.
Qed.

End queue_total.


(** ** Claims on the batch queue *)

Section queue_claims.

Import parse db_batch_queue shape.
Context {abi : layout}.

(** C3, as the code has it. [is_bq_empty] answers 0 exactly when there
    is no queue or [head == tail], and 1 exactly when there is a queue
    with [head != tail]: 0, which is false in C, is its word for
    "empty", and [show_batch_query] returns at once on that 0. *)
Theorem is_bq_empty_zero_iff_empty (m : memory) :
  (is_bq_empty m = Ok 0
   <-> bq m = None
       \/ exists q Q, bq m = Some q /\ queues m !! q = Some Q
                      /\ head Q = tail Q)
  /\ (is_bq_empty m = Ok 1
      <-> exists q Q, bq m = Some q /\ queues m !! q = Some Q
                      /\ head Q <> tail Q)
  /\ (forall fuel A (visit : addr -> bqNode -> result A),
        is_bq_empty m = Ok 0 -> traverse fuel m visit = Ok []).
Proof.
  unfold traverse, is_bq_empty.
  destruct (bq m) as [q|] eqn:Hbq; [destruct (queues m !! q) as [Q|] eqn:HQ|].
  - destruct (decide (head Q = tail Q)) as [E|E].
    + split; [|split].
      * split; [|done]. intros _. right. by exists q, Q.
      * split; [done|]. intros (q' & Q' & [= <-] & HQ' & Hne).
        rewrite HQ in HQ'. injection HQ' as <-. done.
      * done.
    + split; [|split].
      * split; [done|]. intros [|(q' & Q' & [= <-] & HQ' & Heq)]; [done|].
        rewrite HQ in HQ'. injection HQ' as <-. done.
      * split; [|done]. intros _. by exists q, Q.
      * done.
  - split; [|split].
    + split; [done|]. intros [|(q' & Q' & [= <-] & HQ' & _)]; [done|].
      by rewrite HQ in HQ'.
    + split; [done|]. intros (q' & Q' & [= <-] & HQ' & _).
      by rewrite HQ in HQ'.
    + done.
  - split; [|split].
    + split; [|done]. intros _. by left.
    + split; [done|]. by intros (q' & Q' & ? & _).
    + done.
Qed.

(** C3, counterexample. On the queue [create_batch_queue] has just
    made, [head == tail] and [is_bq_empty] returns 0: not a true
    value. *)
Lemma is_bq_empty_false_on_new_queue :
  let m := (create_batch_queue true true samples.no_junk (start ∅)).2 in
  exists q Q, bq m = Some q /\ queues m !! q = Some Q
    /\ head Q = tail Q
    /\ is_bq_empty m = Ok 0
    /\ ~ c_true (is_bq_empty m).
Proof.
  eexists _, _. split; [reflexivity|]. split; [by vm_compute|].
  split; [reflexivity|]. split; [reflexivity|].
  intros (z & Hz & Hnz). vm_compute in Hz. by injection Hz as <-.
Qed.

(** C7, as the code has it. In every state reached by a run of queue
    creations and of enqueues of a node fresh from [create_node],
    whatever the allocator did, the counter of the live queue is the
    number of nodes the traversal of [show_batch_query] visits: none
    while [head == tail], where the [next] of the sentinel is not
    initialised and not read, else the nodes from [head->next] to
    NULL. The sentinel is allocated, is none of the nodes counted, and
    is still the head of the queue after any further enqueue. *)
Theorem length_counts_real_nodes (ops : gmap addr DbOperator)
    (program : list op) (m : memory) (q : addr) (Q : batchQueue) :
  run program (start ops) = Ok m ->
  bq m = Some q -> queues m !! q = Some Q ->
  exists l : list addr,
    (forall fuel, (List.length l < fuel)%nat -> queue_nodes fuel m = Ok l)
    /\ length Q = Z.of_nat (List.length l)
    /\ (head Q ∉ l)
    /\ is_Some (nodes m !! head Q)
    /\ (forall qry ok_node ok_handle r m',
          enqueue qry ok_node ok_handle m = Ok (r, m') ->
          exists Q', bq m' = Some q /\ queues m' !! q = Some Q'
            /\ head Q' = head Q /\ is_Some (nodes m' !! head Q')).
Proof.
  intros Hrun Hbq HQ.
  pose proof (inv_run _ _ _ (inv_start ops) Hrun) as Hinv.
  destruct (live_ok _ Hinv q Q Hbq HQ) as [l Hok].
  exists l. split; [|split; [|split; [|split]]].
  - intros fuel Hfuel. unfold queue_nodes.
    eapply traverse_queue_ok; eauto.
    clear. induction l; constructor; auto.
  - apply (counted _ _ _ Hok).
  - pose proof (distinct _ _ _ Hok) as Hnd. by apply NoDup_cons in Hnd as [? _].
  - apply (sentinel_alloc _ _ _ Hok).
  - intros qry ok_node ok_handle r m' He.
    destruct (enqueue_appends _ _ _ _ _ _ _ _ _ Hinv Hbq HQ Hok He)
      as (Hbq' & _ & [(_ & _ & Hq' & Hn' & _)
                     |(_ & _ & Q' & HQ' & Hh & _ & _ & _ & _ & _ & _ & Hok')]).
    + exists Q. rewrite Hq', Hn'. repeat split; try done.
      apply (sentinel_alloc _ _ _ Hok).
    + exists Q'. repeat split; try done. apply (sentinel_alloc _ _ _ Hok').
Qed.

End queue_claims.

(** ** The queue under the LP64 layout *)

Section queue_lp64.

Import parse db_batch_queue shape.
#[local] Existing Instance lp64.

Lemma length_counts_real_nodes_witness :
  exists m q Q l,
    run samples.enqueue_10_3_7 (start samples.three_selects) = Ok m
    /\ bq m = Some q /\ queues m !! q = Some Q
    /\ length Q = 3
    /\ queue_nodes 4 m = Ok l
    /\ List.length l = 3%nat
    /\ (head Q ∉ l).
Proof.
  destruct (run samples.enqueue_10_3_7 (start samples.three_selects))
    as [m| |] eqn:Hrun; try (by vm_compute in Hrun).
  destruct (bq m) as [q|] eqn:Hbq.
  2:{ vm_compute in Hrun. injection Hrun as <-. by vm_compute in Hbq. }
  destruct (queues m !! q) as [Q|] eqn:HQ.
  2:{ vm_compute in Hrun. injection Hrun as <-. vm_compute in Hbq.
      injection Hbq as <-. by vm_compute in HQ. }
  destruct (length_counts_real_nodes _ _ m q Q Hrun Hbq HQ)
    as (l & Hwalk & Hlen & Hhead & _).
  assert (length Q = 3) as H3.
  { vm_compute in Hrun. injection Hrun as <-. vm_compute in Hbq.
    injection Hbq as <-. vm_compute in HQ. by injection HQ as <-. }
  exists m, q, Q, l. do 3 (split; [done|]). split; [done|].
  assert (List.length l = 3%nat) as Hl by lia.
  split; [apply Hwalk; lia|]. by split.
Defined.

(** C7, counterexample. On a queue just created the bytes of the
    sentinel are what [malloc] left there: [length] is 0 while
    [head->next] holds some address, 77 here, at which no node lives,
    so that following [head->next] counts nothing. And
    [add_batch_queue] takes any node: handed the tail of the queue of
    the three selections once more it returns 0 and [length] becomes
    4, with four nodes in the heap, the sentinel among them, the last
    one now linked to itself. *)
Lemma length_differs_from_reachable :
  (let junk := {| query := None; next := Some 77%positive;
                  share_query_handle := [] |} in
   let m := (create_batch_queue true true junk (start ∅)).2 in
   exists q Q s,
     bq m = Some q /\ queues m !! q = Some Q /\ length Q = 0
     /\ nodes m !! head Q = Some s
     /\ next s = Some 77%positive
     /\ walk 8 m (fun a _ => Ok a) (next s) = Undefined)
  /\ (exists m q Q r m' Q',
        run samples.enqueue_10_3_7 (start samples.three_selects) = Ok m
        /\ bq m = Some q /\ queues m !! q = Some Q
        /\ add_batch_queue (Some (tail Q)) m = Ok (r, m')
        /\ r = 0
        /\ queues m' !! q = Some Q'
        /\ length Q' = 4
        /\ size (nodes m') = 4%nat
        /\ is_Some (nodes m' !! head Q')
        /\ queue_nodes 1000 m' = OutOfFuel).
Proof.
  split.
  - eexists _, _, _. split; [reflexivity|]. split; [by vm_compute|].
    split; [reflexivity|]. split; [by vm_compute|]. split; by vm_compute.
  - eexists _, _, _, _, _, _. split; [vm_compute; reflexivity|].
    split; [reflexivity|]. split; [vm_compute; reflexivity|].
    split; [vm_compute; reflexivity|]. split; [reflexivity|].
    split; [vm_compute; reflexivity|]. split; [reflexivity|].
    split; [vm_compute; reflexivity|]. split; [vm_compute; by eexists|].
    vm_compute; reflexivity.
Qed.

(** C1, the failing input. With the queue created and the selections
    whose ranges start at 10, 3 and 7 enqueued in that order, the
    traversal reads them back as 10, 3, 7: [add_batch_queue] links
    each node behind the tail and compares no range. *)
Theorem enqueue_10_3_7_reads_10_3_7 :
  exists m,
    run samples.enqueue_10_3_7 (start samples.three_selects) = Ok m
    /\ queue_selects 4 m
       = Ok [ (lit "10", lit "20", lit "s1"); (lit "3", lit "5", lit "s2");
              (lit "7", lit "9", lit "s3") ]
    /\ show_batch_query 4 m
       = Ok [ lit "query: db1.grades.score, 10, 20." ++ [newline];
              lit "query: db1.grades.score, 3, 5." ++ [newline];
              lit "query: db1.grades.score, 7, 9." ++ [newline] ].
Proof. eexists. split; [by vm_compute|]. split; by vm_compute. Qed.

End queue_lp64.

(** * Further properties *)

(** ** C strings in the command buffer *)

Section buffers.

(** A string proper: no NUL among its characters. *)
Lemma until_nul_app (s rest : list ascii) :
  NUL ∉ s -> libc.until_nul (s ++ NUL :: rest) = s.
Proof.
  induction s as [|c s IH]; intros Hs; cbn.
  - by rewrite bool_decide_eq_true_2.
  - apply not_elem_of_cons in Hs as [Hc Hs].
    rewrite bool_decide_eq_false_2 by done. by rewrite IH.
Qed.

Lemma until_nul_no_nul (l : list ascii) : NUL ∉ libc.until_nul l.
Proof.
  induction l as [|c l IH]; cbn; [apply not_elem_of_nil|].
  case_bool_decide; [apply not_elem_of_nil|].
  apply not_elem_of_cons. by split.
Qed.

Lemma c_string_at (pre s rest : list ascii) :
  NUL ∉ s -> cbuf.c_string (pre ++ s ++ NUL :: rest) (List.length pre) = s.
Proof.
  intros Hs. unfold cbuf.c_string. rewrite drop_app_length.
  by apply until_nul_app.
Qed.

Lemma c_string_front (s rest : list ascii) :
  NUL ∉ s -> cbuf.c_string (s ++ NUL :: rest) 0 = s.
Proof. apply (c_string_at []). Qed.

Lemma strchr_found (s r : cstr) (c : ascii) :
  c ∉ s -> libc.strchr (s ++ c :: r) c = Some (List.length s).
Proof.
  induction s as [|x s IH]; intros Hs; cbn.
  - by rewrite bool_decide_eq_true_2.
  - apply not_elem_of_cons in Hs as [Hx Hs].
    rewrite bool_decide_eq_false_2 by done. by rewrite IH.
Qed.

Lemma strchr_none (s : cstr) (c : ascii) :
  c ∉ s -> libc.strchr s c = None.
Proof.
  induction s as [|x s IH]; intros Hs; cbn; [done|].
  apply not_elem_of_cons in Hs as [Hx Hs].
  rewrite bool_decide_eq_false_2 by done. by rewrite IH.
Qed.

Lemma strchr_some (s : cstr) (c : ascii) (i : nat) :
  libc.strchr s c = Some i ->
  exists a b, s = a ++ c :: b /\ (c ∉ a) /\ List.length a = i.
Proof.
  revert i. induction s as [|x s IH]; intros i; cbn; [done|].
  case_bool_decide as Hx.
  - intros [= <-]. exists [], s. subst x. split; [done|].
    split; [apply not_elem_of_nil|done].
  - destruct (libc.strchr s c) as [j|] eqn:E; cbn; [|done].
    intros [= <-]. destruct (IH j eq_refl) as (a & b & -> & Ha & <-).
    exists (x :: a), b. split; [done|]. split; [|done].
    apply not_elem_of_cons. split; [congruence|done].
Qed.

(** [strsep] on a token that is followed by its delimiter: the
    delimiter becomes NUL and the tokenizer moves behind it. *)
Lemma strsep_delimited (pre tok rest : list ascii) (delim : ascii) :
  NUL ∉ tok -> delim ∉ tok -> delim <> NUL ->
  cbuf.strsep (pre ++ tok ++ delim :: rest) (Some (List.length pre)) delim
  = (pre ++ tok ++ NUL :: rest,
     Some (List.length (pre ++ tok ++ [delim])), Some (List.length pre)).
Proof.
  intros Hn Hd Hdn. unfold cbuf.strsep, cbuf.c_string.
  rewrite drop_app_length.
  assert (exists t2, libc.until_nul (tok ++ delim :: rest) = tok ++ delim :: t2)
    as [t2 ->].
  { clear Hd. induction tok as [|x tok IH]; cbn.
    - rewrite bool_decide_eq_false_2 by done. by eexists.
    - apply not_elem_of_cons in Hn as [Hx Hn].
      rewrite bool_decide_eq_false_2 by done.
      destruct (IH Hn) as [t2 ->]. by eexists. }
  rewrite strchr_found by done.
  assert (<[(List.length pre + List.length tok)%nat := NUL]>
            (pre ++ tok ++ delim :: rest) = pre ++ tok ++ NUL :: rest) as ->.
  { rewrite insert_app_r. f_equal.
    replace (List.length tok) with (List.length tok + 0)%nat by lia.
    by rewrite insert_app_r. }
  rewrite !length_app. cbn. do 3 f_equal. lia.
Qed.

Lemma strsep_first (tok rest : list ascii) (delim : ascii) :
  NUL ∉ tok -> delim ∉ tok -> delim <> NUL ->
  cbuf.strsep (tok ++ delim :: rest) (Some O) delim
  = (tok ++ NUL :: rest, Some (List.length (tok ++ [delim])), Some O).
Proof. apply (strsep_delimited []). Qed.

(** [strsep] on the last token: the buffer stays and the tokenizer
    becomes NULL. *)
Lemma strsep_last (pre tok rest : list ascii) (delim : ascii) :
  NUL ∉ tok -> delim ∉ tok ->
  cbuf.strsep (pre ++ tok ++ NUL :: rest) (Some (List.length pre)) delim
  = (pre ++ tok ++ NUL :: rest, None, Some (List.length pre)).
Proof.
  intros Hn Hd. unfold cbuf.strsep. rewrite c_string_at by done.
  by rewrite strchr_none.
Qed.

End buffers.

Ltac list_norm := repeat (rewrite <- ?app_assoc; cbn [app]).

(** A closed decidable proposition, by evaluation. *)
Ltac by_evaluation := apply (bool_decide_unpack _); vm_compute; exact I.

Section handlers.

Import parse.

Lemma trim_quote_length (s : cstr) :
  (List.length (utils_func.trim_quote s) <= List.length s)%nat.
Proof.
  induction s as [|c s IH]; cbn; [lia|]. case_bool_decide; cbn; lia.
Qed.

Lemma trim_quote_no_nul (s : cstr) :
  NUL ∉ s -> NUL ∉ utils_func.trim_quote s.
Proof.
  induction s as [|c s IH]; cbn; [done|]. intros [Hc Hs]%not_elem_of_cons.
  case_bool_decide; [|by apply IH].
  apply not_elem_of_cons. split; [done|by apply IH].
Qed.

(** Rewriting the first token by its quote-free text keeps the bytes
    behind that token where they are. *)
Lemma trim_quotes_at_front (t rest : list ascii) :
  NUL ∉ t ->
  exists stale,
    trim_quotes_at (t ++ NUL :: rest) 0
    = (trim_quotes t ++ NUL :: stale) ++ rest
    /\ List.length (trim_quotes t ++ NUL :: stale) = S (List.length t).
Proof.
  intros Ht. unfold trim_quotes_at, cbuf.rewrite_at.
  rewrite (c_string_front t rest Ht), take_0. cbn [app Nat.add].
  pose proof (trim_quote_length t) as Hlen. unfold trim_quotes.
  set (tq := utils_func.trim_quote t) in *.
  exists (drop (List.length tq + 1) (t ++ [NUL])).
  split.
  - rewrite <- app_assoc. cbn [app]. do 2 f_equal.
    replace (t ++ NUL :: rest) with ((t ++ [NUL]) ++ rest)
      by (by rewrite <- app_assoc).
    rewrite drop_app_le; [done|]. rewrite length_app. cbn. lia.
  - rewrite length_app. cbn. rewrite length_drop, length_app. cbn. lia.
Qed.

Lemma to_int_small (z : Z) : 0 <= z <= libc.INT_MAX -> libc.to_int z = z.
Proof.
  unfold libc.to_int, libc.INT_MAX. intros H.
  rewrite Z.mod_small; lia.
Qed.


(** [next_token_comma] on a token followed by a comma, on the last
    token, and once the tokenizer is NULL. *)
Lemma next_token_comma_delimited (pre tok rest : list ascii)
    (st : message_status) :
  NUL ∉ tok -> ","%char ∉ tok ->
  next_token_comma {| buf := pre ++ tok ++ ","%char :: rest;
                      tokenizer := Some (List.length pre); status := st |}
  = ({| buf := pre ++ tok ++ NUL :: rest;
        tokenizer := Some (List.length (pre ++ tok ++ [NUL]));
        status := st |}, Some (List.length pre)).
Proof.
  intros Hn Hc. unfold next_token_comma. cbn [buf tokenizer status].
  rewrite strsep_delimited by done. by rewrite !length_app.
Qed.

Lemma next_token_comma_last (pre tok rest : list ascii) (st : message_status) :
  NUL ∉ tok -> ","%char ∉ tok ->
  next_token_comma {| buf := pre ++ tok ++ NUL :: rest;
                      tokenizer := Some (List.length pre); status := st |}
  = ({| buf := pre ++ tok ++ NUL :: rest; tokenizer := None; status := st |},
     Some (List.length pre)).
Proof.
  intros Hn Hc. unfold next_token_comma. cbn [buf tokenizer status].
  by rewrite strsep_last.
Qed.

Lemma next_token_comma_exhausted (b : list ascii) (st : message_status) :
  next_token_comma {| buf := b; tokenizer := None; status := st |}
  = ({| buf := b; tokenizer := None; status := INCORRECT_FORMAT |}, None).
Proof. reflexivity. Qed.

Lemma not_in_snoc (c x : ascii) (s : cstr) : c ∉ s -> c <> x -> c ∉ s ++ [x].
Proof.
  intros Hs Hx [?|?%list_elem_of_singleton]%elem_of_app; done.
Qed.

Lemma next_token_comma_unread (pre tok rest : list ascii)
    (st : message_status) :
  NUL ∉ tok -> ","%char ∉ tok -> unread rest ->
  exists tail tk,
    next_token_comma {| buf := pre ++ tok ++ rest ++ [NUL];
                        tokenizer := Some (List.length pre); status := st |}
    = ({| buf := pre ++ tok ++ NUL :: tail; tokenizer := tk; status := st |},
       Some (List.length pre)).
Proof.
  intros Hn Hc [->|(r & -> & Hr)].
  - exists [], None. cbn [app]. by apply next_token_comma_last.
  - eexists (r ++ [NUL]), _. cbn [app]. by apply next_token_comma_delimited.
Qed.

(** The tokens of a [create(tbl,...)] with three arguments or more. *)
Lemma create_tbl_tokens_three (t d n rest : cstr) :
  NUL ∉ t -> ","%char ∉ t -> NUL ∉ d -> ","%char ∉ d ->
  NUL ∉ n -> ","%char ∉ n -> unread rest ->
  exists tail tk,
    create_tbl_tokens (t ++ ","%char :: d ++ ","%char :: n ++ rest)
    = ({| buf := t ++ NUL :: d ++ NUL :: n ++ NUL :: tail; tokenizer := tk;
          status := OK_DONE |},
       Some O, Some (S (List.length t)),
       Some (S (S (List.length t + List.length d)))).
Proof.
  intros Ht Htc Hd Hdc Hn Hnc Hrest. unfold create_tbl_tokens, cbuf.of_cstr.
  replace ((t ++ ","%char :: d ++ ","%char :: n ++ rest) ++ [NUL])
    with ([] ++ t ++ ","%char :: (d ++ ","%char :: n ++ rest ++ [NUL]))
    by (by list_norm).
  rewrite (next_token_comma_delimited [] t) by done.
  replace ([] ++ t ++ NUL :: d ++ ","%char :: n ++ rest ++ [NUL])
    with (([] ++ t ++ [NUL]) ++ d ++ ","%char :: (n ++ rest ++ [NUL]))
    by (by list_norm).
  rewrite (next_token_comma_delimited ([] ++ t ++ [NUL]) d) by done.
  replace (([] ++ t ++ [NUL]) ++ d ++ NUL :: n ++ rest ++ [NUL])
    with ((([] ++ t ++ [NUL]) ++ d ++ [NUL]) ++ n ++ rest ++ [NUL])
    by (by list_norm).
  destruct (next_token_comma_unread (([] ++ t ++ [NUL]) ++ d ++ [NUL]) n rest
              OK_DONE Hn Hnc Hrest) as (tail & tk & ->).
  exists tail, tk. rewrite !length_app. cbn [List.length app].
  do 3 f_equal.
  - f_equal. by list_norm.
  - f_equal. lia.
  - f_equal. lia.
Qed.

Lemma create_tbl_three (t d n rest : cstr) :
  NUL ∉ t -> ","%char ∉ t -> NUL ∉ d -> ","%char ∉ d ->
  NUL ∉ n -> ","%char ∉ n -> unread rest ->
  Z.of_nat (List.length n) < libc.INT_MAX ->
  parse_create_tbl (t ++ ","%char :: d ++ ","%char :: n ++ ")"%char :: rest)
  = Ok (if libc.to_size_t (libc.atoi n) <? 1
        then error_dbo wrong_column_number
        else create_tbl_operator d (d ++ "."%char :: trim_quotes t)
               (libc.to_size_t (libc.atoi n))).
Proof.
  intros Ht Htc Hd Hdc Hn Hnc Hrest Hlen.
  assert (NUL ∉ n ++ [")"%char]) as Hn' by (by apply not_in_snoc).
  assert (","%char ∉ n ++ [")"%char]) as Hnc' by (by apply not_in_snoc).
  unfold parse_create_tbl.
  replace (t ++ ","%char :: d ++ ","%char :: n ++ ")"%char :: rest)
    with (t ++ ","%char :: d ++ ","%char :: (n ++ [")"%char]) ++ rest)
    by (by list_norm).
  destruct (create_tbl_tokens_three t d (n ++ [")"%char]) rest)
    as (tail & tk & ->); try done.
  cbn [buf tokenizer status]. rewrite decide_False by done.
  (* the table name loses its quotes in place *)
  destruct (trim_quotes_at_front t
              (d ++ NUL :: (n ++ [")"%char]) ++ NUL :: tail) Ht)
    as (stale & -> & Hpre).
  set (pre := trim_quotes t ++ NUL :: stale) in *.
  set (p3 := S (S (List.length t + List.length d))).
  assert (p3 = List.length (pre ++ d ++ [NUL])) as Hp3
    by (rewrite !length_app; cbn; unfold p3; lia).
  assert (pre ++ d ++ NUL :: (n ++ [")"%char]) ++ NUL :: tail
          = (pre ++ d ++ [NUL]) ++ (n ++ [")"%char]) ++ NUL :: tail) as Eb
    by (by list_norm).
  (* the count and its closing parenthesis *)
  assert (parse.last_char (pre ++ d ++ NUL :: (n ++ [")"%char]) ++ NUL :: tail)
            p3 = Z.of_nat (List.length n)) as Hlast.
  { unfold parse.last_char, cbuf.strlen. rewrite Eb, Hp3.
    rewrite (c_string_at _ (n ++ [")"%char]) tail Hn').
    rewrite length_app. cbn. rewrite to_int_small; lia. }
  rewrite Hlast.
  assert ((pre ++ d ++ NUL :: (n ++ [")"%char]) ++ NUL :: tail)
          !! (p3 + List.length n)%nat = Some ")"%char) as Hat.
  { rewrite Eb, Hp3. rewrite lookup_app_r by lia.
    rewrite Nat.add_comm, Nat.add_sub. list_norm.
    replace (List.length n) with (List.length n + 0)%nat by lia.
    by rewrite lookup_app_r, Nat.add_comm, Nat.add_sub by lia. }
  unfold cbuf.store, cbuf.char_at.
  replace (Z.of_nat p3 + Z.of_nat (List.length n) <? 0) with false
    by (symmetry; apply Z.ltb_ge; lia).
  replace (Z.to_nat (Z.of_nat p3 + Z.of_nat (List.length n)))
    with (p3 + List.length n)%nat by lia.
  rewrite Hat. rewrite bool_decide_eq_false_2 by (intros H; by apply H).
  assert (<[(p3 + List.length n)%nat := NUL]>
            (pre ++ d ++ NUL :: (n ++ [")"%char]) ++ NUL :: tail)
          = (pre ++ d ++ [NUL]) ++ n ++ NUL :: NUL :: tail) as ->.
  { rewrite Eb, Hp3. rewrite insert_app_r. f_equal. list_norm.
    replace (List.length n) with (List.length n + 0)%nat at 1 by lia.
    by rewrite insert_app_r. }
  assert (cbuf.c_string ((pre ++ d ++ [NUL]) ++ n ++ NUL :: NUL :: tail) p3 = n)
    as -> by (rewrite Hp3; by apply c_string_at).
  assert (cbuf.c_string ((pre ++ d ++ [NUL]) ++ n ++ NUL :: NUL :: tail)
            (S (List.length t)) = d) as ->.
  { rewrite <- Hpre. list_norm. by apply c_string_at. }
  assert (cbuf.c_string ((pre ++ d ++ [NUL]) ++ n ++ NUL :: NUL :: tail) 0
          = trim_quotes t) as ->.
  { unfold pre. list_norm. apply c_string_front. by apply trim_quote_no_nul. }
  by destruct (libc.to_size_t (libc.atoi n) <? 1).
Qed.

(** X2. Compiling [create(tbl,t,d,n)]: with three arguments and the closing
    parenthesis behind the third, the operator names the database [d],
    the table [d.t] with the quotes of [t] deleted, and carries the
    count [atoi] reads in [n], converted to [size_t]; a count that
    converts to 0 is refused. Arguments behind the third are not
    read. *)
Theorem parse_create_tbl_three_arguments (t d n rest : cstr) :
  NUL ∉ t -> ","%char ∉ t -> NUL ∉ d -> ","%char ∉ d ->
  NUL ∉ n -> ","%char ∉ n -> unread rest ->
  Z.of_nat (List.length n) < libc.INT_MAX ->
  parse_create_tbl (t ++ ","%char :: d ++ ","%char :: n ++ ")"%char :: rest)
  = Ok (if libc.to_size_t (libc.atoi n) <? 1
        then error_dbo wrong_column_number
        else create_tbl_operator d (d ++ "."%char :: trim_quotes t)
               (libc.to_size_t (libc.atoi n))).
Proof. exact (create_tbl_three t d n rest). Qed.

Lemma parse_create_tbl_three_arguments_witness :
  parse_create_tbl
    ((dquote :: lit "grades" ++ [dquote]) ++ ","%char :: lit "db1"
     ++ ","%char :: lit "2" ++ ")"%char :: lit ",surplus")
  = Ok (create_tbl_operator (lit "db1") (lit "db1.grades") 2).
Proof.
  apply (parse_create_tbl_three_arguments (dquote :: lit "grades" ++ [dquote])
           (lit "db1") (lit "2") (lit ",surplus")); try by_evaluation.
  right. eexists. split; [reflexivity|by_evaluation].
Defined.

(** ** Too few arguments *)

Lemma no_delim_count (c : ascii) (s : cstr) :
  List.length (filter (fun x => x = c) s) = O -> c ∉ s.
Proof.
  induction s as [|x s IH]; [intros _; apply not_elem_of_nil|].
  rewrite filter_cons. case_decide as Hx; cbn; [done|].
  intros H. apply not_elem_of_cons. split; [congruence|by apply IH].
Qed.

(** X3. [create(tbl,...)] with fewer than three arguments, that is with
    fewer than two commas, is answered by the usage message. *)
Theorem parse_create_tbl_too_few_arguments (q : cstr) :
  NUL ∉ q ->
  (List.length (filter (fun x => x = ","%char) q) < 2)%nat ->
  parse_create_tbl q = Ok (error_dbo create_tbl_usage).
Proof.
  intros Hq Hcount. unfold parse_create_tbl, create_tbl_tokens, cbuf.of_cstr.
  destruct (libc.strchr q ","%char) as [i|] eqn:E.
  - apply strchr_some in E as (t & d & -> & Htc & _).
    apply not_elem_of_app in Hq as [Ht Hd].
    apply not_elem_of_cons in Hd as [_ Hd].
    assert (","%char ∉ d) as Hdc.
    { apply no_delim_count. rewrite filter_app, filter_cons in Hcount.
      rewrite decide_True in Hcount by done.
      rewrite length_app in Hcount. cbn in Hcount. lia. }
    replace ((t ++ ","%char :: d) ++ [NUL])
      with ([] ++ t ++ ","%char :: (d ++ [NUL])) by (by list_norm).
    rewrite (next_token_comma_delimited [] t) by done.
    replace ([] ++ t ++ NUL :: d ++ [NUL])
      with (([] ++ t ++ [NUL]) ++ d ++ NUL :: []) by (by list_norm).
    rewrite (next_token_comma_last ([] ++ t ++ [NUL]) d) by done.
    by rewrite next_token_comma_exhausted.
  - assert (","%char ∉ q) as Hqc.
    { intros Hin. apply list_elem_of_split in Hin as (a & b & ->).
      clear Hq Hcount. induction a as [|x a IH]; cbn in E.
      - by rewrite bool_decide_eq_true_2 in E.
      - case_bool_decide; [done|].
        destruct (libc.strchr (a ++ ","%char :: b) ","%char); [done|by apply IH]. }
    replace (q ++ [NUL]) with ([] ++ q ++ NUL :: []) by done.
    rewrite (next_token_comma_last [] q) by done.
    by rewrite !next_token_comma_exhausted.
Qed.

Lemma parse_create_tbl_too_few_arguments_witness :
  parse_create_tbl (lit "grades,db1") = Ok (error_dbo create_tbl_usage).
Proof. apply parse_create_tbl_too_few_arguments; by_evaluation. Defined.

End handlers.

Section handlers_col.

Import parse.

(** [trim_quotes] of the token at [pre], in place. *)
Lemma trim_quotes_at_token (pre t rest : list ascii) :
  NUL ∉ t ->
  exists stale,
    trim_quotes_at (pre ++ t ++ NUL :: rest) (List.length pre)
    = pre ++ (trim_quotes t ++ NUL :: stale) ++ rest
    /\ List.length (trim_quotes t ++ NUL :: stale) = S (List.length t).
Proof.
  intros Ht. unfold trim_quotes_at, cbuf.rewrite_at.
  rewrite (c_string_at pre t rest Ht), take_app_length.
  pose proof (trim_quote_length t) as Hlen. unfold trim_quotes.
  set (tq := utils_func.trim_quote t) in *.
  exists (drop (List.length tq + 1) (t ++ [NUL])).
  split.
  - f_equal. list_norm. do 2 f_equal.
    rewrite <- Nat.add_assoc, drop_app_add'; [|done].
    replace (t ++ NUL :: rest) with ((t ++ [NUL]) ++ rest) by (by list_norm).
    rewrite drop_app_le; [done|]. rewrite length_app. cbn. lia.
  - rewrite length_app. cbn. rewrite length_drop, length_app. cbn. lia.
Qed.

(** X4. Compiling [create(col,c,t)]: with two arguments and the closing
    parenthesis behind the second, the operator names the table [t]
    and the column [t.c] with the quotes of [c] deleted. Arguments
    behind the second are not read. *)
Theorem parse_create_col_two_arguments (c t rest : cstr) :
  NUL ∉ c -> ","%char ∉ c -> NUL ∉ t -> ","%char ∉ t -> unread rest ->
  Z.of_nat (List.length t) < libc.INT_MAX ->
  parse_create_col (c ++ ","%char :: t ++ ")"%char :: rest)
  = Ok (create_col_operator t (t ++ "."%char :: trim_quotes c)).
Proof.
  intros Hc Hcc Ht Htc Hrest Hlen.
  assert (NUL ∉ t ++ [")"%char]) as Ht' by (by apply not_in_snoc).
  assert (","%char ∉ t ++ [")"%char]) as Htc' by (by apply not_in_snoc).
  unfold parse_create_col, create_col_tokens, cbuf.of_cstr.
  replace ((c ++ ","%char :: t ++ ")"%char :: rest) ++ [NUL])
    with ([] ++ c ++ ","%char :: ((t ++ [")"%char]) ++ rest ++ [NUL]))
    by (by list_norm).
  rewrite (next_token_comma_delimited [] c) by done.
  cbn [buf tokenizer status].
  destruct (trim_quotes_at_token [] c ((t ++ [")"%char]) ++ rest ++ [NUL]) Hc)
    as (stale & Etrim & Hpre).
  rewrite Etrim. clear Etrim. cbn [app].
  set (pre := trim_quotes c ++ NUL :: stale) in *.
  replace (List.length (c ++ [NUL])) with (List.length pre)
    by (rewrite length_app; cbn; lia).
  destruct (next_token_comma_unread pre (t ++ [")"%char]) rest OK_DONE
              Ht' Htc' Hrest) as (tail & tk & ->).
  cbn [buf tokenizer status app List.length]. rewrite decide_False by done.
  assert (parse.last_char (pre ++ (t ++ [")"%char]) ++ NUL :: tail)
            (List.length pre) = Z.of_nat (List.length t)) as ->.
  { unfold parse.last_char, cbuf.strlen.
    rewrite (c_string_at _ (t ++ [")"%char]) tail Ht').
    rewrite length_app. cbn. rewrite to_int_small; lia. }
  assert ((pre ++ (t ++ [")"%char]) ++ NUL :: tail)
          !! (List.length pre + List.length t)%nat = Some ")"%char) as Hat.
  { rewrite lookup_app_r by lia. rewrite Nat.add_comm, Nat.add_sub. list_norm.
    replace (List.length t) with (List.length t + 0)%nat by lia.
    by rewrite lookup_app_r, Nat.add_comm, Nat.add_sub by lia. }
  unfold cbuf.store, cbuf.char_at.
  replace (Z.of_nat (List.length pre) + Z.of_nat (List.length t) <? 0)
    with false by (symmetry; apply Z.ltb_ge; lia).
  replace (Z.to_nat (Z.of_nat (List.length pre) + Z.of_nat (List.length t)))
    with (List.length pre + List.length t)%nat by lia.
  rewrite Hat. rewrite bool_decide_eq_false_2 by (intros H; by apply H).
  assert (<[(List.length pre + List.length t)%nat := NUL]>
            (pre ++ (t ++ [")"%char]) ++ NUL :: tail)
          = pre ++ t ++ NUL :: NUL :: tail) as ->.
  { rewrite insert_app_r. f_equal. list_norm.
    replace (List.length t) with (List.length t + 0)%nat at 1 by lia.
    by rewrite insert_app_r. }
  rewrite (c_string_at pre t (NUL :: tail) Ht).
  assert (cbuf.c_string (pre ++ t ++ NUL :: NUL :: tail) 0 = trim_quotes c)
    as ->; [|done].
  unfold pre. list_norm. apply c_string_front. by apply trim_quote_no_nul.
Qed.

Lemma parse_create_col_two_arguments_witness :
  parse_create_col
    ((dquote :: lit "score" ++ [dquote]) ++ ","%char :: lit "db1.grades"
     ++ ")"%char :: [])
  = Ok (create_col_operator (lit "db1.grades") (lit "db1.grades.score")).
Proof.
  apply (parse_create_col_two_arguments (dquote :: lit "score" ++ [dquote])
           (lit "db1.grades") []); try by_evaluation.
  by left.
Defined.

(** X5. [create(col,...)] with a single argument is answered by the usage
    message. *)
Theorem parse_create_col_too_few_arguments (q : cstr) :
  NUL ∉ q -> ","%char ∉ q ->
  parse_create_col q = Ok (error_dbo create_col_usage).
Proof.
  intros Hq Hqc. unfold parse_create_col, create_col_tokens, cbuf.of_cstr.
  replace (q ++ [NUL]) with ([] ++ q ++ NUL :: []) by done.
  rewrite (next_token_comma_last [] q) by done.
  cbn [buf tokenizer status]. by rewrite next_token_comma_exhausted.
Qed.

Lemma parse_create_col_too_few_arguments_witness :
  parse_create_col (lit "score)") = Ok (error_dbo create_col_usage).
Proof. apply parse_create_col_too_few_arguments; by_evaluation. Defined.

End handlers_col.

Section single_argument.

Import parse.

Lemma last_snoc_inv (s : cstr) :
  s = [] \/ exists a x, s = a ++ [x].
Proof.
  destruct s as [|c s]; [by left|]. right.
  destruct (exists_last (l := c :: s) ltac:(done)) as (a & x & ->). by eexists _, _.
Qed.

(** The test both single-argument handlers make on the quote-free
    argument: its last character must be the closing parenthesis. *)
Lemma closing_test (s : cstr) :
  Z.of_nat (List.length s) <= libc.INT_MAX ->
  let last_char := libc.to_int (Z.of_nat (List.length s)) - 1 in
  (forall name, s = name ++ [")"%char] ->
     (last_char <? 0) || bool_decide (s !! Z.to_nat last_char <> Some ")"%char)
     = false
     /\ take (Z.to_nat last_char) s = name)
  /\ (List.last s NUL <> ")"%char ->
      (last_char <? 0) || bool_decide (s !! Z.to_nat last_char <> Some ")"%char)
      = true).
Proof.
  intros Hlen last_char. subst last_char.
  rewrite to_int_small by lia. split.
  - intros name ->. rewrite length_app in *. cbn [List.length] in *.
    replace (Z.to_nat (Z.of_nat (List.length name + 1) - 1))
      with (List.length name) by lia.
    replace (Z.of_nat (List.length name + 1) - 1 <? 0) with false
      by (symmetry; apply Z.ltb_ge; lia).
    rewrite take_app_length. split; [|done]. cbn.
    apply bool_decide_eq_false_2. intros H. apply H.
    replace (List.length name) with (List.length name + 0)%nat by lia.
    by rewrite lookup_app_r, Nat.add_comm, Nat.add_sub by lia.
  - intros Hlast. destruct (last_snoc_inv s) as [->|(a & x & ->)]; [done|].
    rewrite List.last_last in Hlast. rewrite length_app in *.
    cbn [List.length] in *.
    replace (Z.to_nat (Z.of_nat (List.length a + 1) - 1))
      with (List.length a) by lia.
    apply orb_true_iff. right. apply bool_decide_eq_true_2.
    replace (List.length a) with (List.length a + 0)%nat at 1 by lia.
    rewrite lookup_app_r, Nat.add_comm, Nat.add_sub by lia. cbn. congruence.
Qed.

Lemma create_db_closing (q : cstr) :
  Z.of_nat (List.length q) <= libc.INT_MAX ->
  (forall name, trim_quotes q = name ++ [")"%char] ->
     parse_create_db q = create_db_operator name)
  /\ (List.last (trim_quotes q) NUL <> ")"%char ->
      parse_create_db q = error_dbo create_db_usage).
Proof.
  intros Hlen. pose proof (trim_quote_length q) as Hq.
  destruct (closing_test (trim_quotes q)) as [Hyes Hno];
    [unfold trim_quotes; lia|].
  unfold parse_create_db. split.
  - intros name E. destruct (Hyes name E) as [-> ->]. done.
  - intros Hlast. by rewrite (Hno Hlast).
Qed.

(** X6. [create(db,...)]: the argument, its quotes deleted, must end with
    the closing parenthesis; the database is named by what stands in
    front of it, else the usage message is returned (also for an empty
    argument). *)
Theorem parse_create_db_closing_parenthesis (q : cstr) :
  Z.of_nat (List.length q) <= libc.INT_MAX ->
  (forall name, trim_quotes q = name ++ [")"%char] ->
     parse_create_db q = create_db_operator name)
  /\ (List.last (trim_quotes q) NUL <> ")"%char ->
      parse_create_db q = error_dbo create_db_usage).
Proof. exact (create_db_closing q). Qed.

Lemma parse_create_db_closing_parenthesis_witness :
  parse_create_db (dquote :: lit "db1" ++ dquote :: [")"%char])
  = create_db_operator (lit "db1")
  /\ parse_create_db (dquote :: lit "db1" ++ [dquote])
     = error_dbo create_db_usage
  /\ parse_create_db [] = error_dbo create_db_usage.
Proof.
  split; [|split].
  - apply (parse_create_db_closing_parenthesis
             (dquote :: lit "db1" ++ dquote :: [")"%char]));
      [by_evaluation|reflexivity].
  - apply (parse_create_db_closing_parenthesis
             (dquote :: lit "db1" ++ [dquote])); by_evaluation.
  - apply (parse_create_db_closing_parenthesis []); by_evaluation.
Defined.

(** X7. [load(...)]: the argument, its quotes deleted, must end with
    the closing parenthesis; the path is what stands in front of it,
    else the usage message is returned. *)
Theorem parse_load_closing_parenthesis (q : cstr) :
  Z.of_nat (List.length q) <= libc.INT_MAX ->
  (forall path, trim_quotes q = path ++ [")"%char] ->
     parse_load q = load_operator path)
  /\ (List.last (trim_quotes q) NUL <> ")"%char ->
      parse_load q = error_dbo load_usage).
Proof.
  intros Hlen. pose proof (trim_quote_length q) as Hq.
  destruct (closing_test (trim_quotes q)) as [Hyes Hno];
    [unfold trim_quotes; lia|].
  unfold parse_load. split.
  - intros path E. destruct (Hyes path E) as [-> ->]. done.
  - intros Hlast. by rewrite (Hno Hlast).
Qed.

Lemma parse_load_closing_parenthesis_witness :
  parse_load (dquote :: lit "/tmp/data.csv" ++ dquote :: [")"%char])
  = load_operator (lit "/tmp/data.csv")
  /\ parse_load (lit "/tmp/data.csv") = error_dbo load_usage.
Proof.
  split.
  - apply (parse_load_closing_parenthesis
             (dquote :: lit "/tmp/data.csv" ++ dquote :: [")"%char]));
      [by_evaluation|reflexivity].
  - apply (parse_load_closing_parenthesis (lit "/tmp/data.csv")); by_evaluation.
Defined.

End single_argument.

(** ** The byte the closing-parenthesis check reads *)

Section closing_check.

Import parse.












End closing_check.


Section lines.

Import parse.

Lemma code_inj (x y : ascii) : code x = code y -> x = y.
Proof.
  unfold code. intros H. apply Nat2Z.inj in H.
  rewrite <- (ascii_nat_embedding x), <- (ascii_nat_embedding y). by rewrite H.
Qed.

Lemma code_nul (x : ascii) : code x = 0 -> x = NUL.
Proof. intros H. by apply code_inj. Qed.

Lemma strncmp_none (a b : cstr) : libc.strncmp a b 0 = 0.
Proof. by destruct a. Qed.

(** [strncmp] is 0 on a string that starts with the keyword. *)
Lemma strncmp_prefix (kw rest : cstr) :
  libc.strncmp (kw ++ rest) kw (List.length kw) = 0.
Proof.
  induction kw as [|c kw IH]; [apply strncmp_none|]. cbn.
  rewrite bool_decide_eq_true_2 by done. exact IH.
Qed.

(** [strncmp] of proper strings is 0 on equal prefixes only. *)
Lemma strncmp_zero (a b : cstr) (n : nat) :
  NUL ∉ a -> NUL ∉ b -> libc.strncmp a b n = 0 -> take n a = take n b.
Proof.
  revert a b. induction n as [|n IH]; intros a b Ha Hb; [done|].
  destruct a as [|x a], b as [|y b]; cbn [libc.strncmp take]; try done.
  - intros H. apply not_elem_of_cons in Hb as [Hy _].
    exfalso. apply Hy. symmetry. apply code_nul. lia.
  - intros H. apply not_elem_of_cons in Ha as [Hx _].
    exfalso. apply Hx. symmetry. by apply code_nul.
  - apply not_elem_of_cons in Ha as [_ Ha].
    apply not_elem_of_cons in Hb as [_ Hb].
    case_bool_decide as Hxy.
    + subst y. intros H. f_equal. by apply IH.
    + intros H. exfalso. apply Hxy, code_inj. lia.
Qed.

Lemma trim_whitespace_id (s : cstr) :
  Forall (fun c => libc.isspace c = false) s -> utils_func.trim_whitespace s = s.
Proof.
  induction 1 as [|c s Hc _ IH]; [done|]. cbn. by rewrite Hc, IH.
Qed.

Lemma trim_whitespace_app (a b : cstr) :
  utils_func.trim_whitespace (a ++ b)
  = utils_func.trim_whitespace a ++ utils_func.trim_whitespace b.
Proof.
  induction a as [|c a IH]; [done|]. cbn.
  destruct (libc.isspace c); cbn; by rewrite IH.
Qed.

Lemma trim_whitespace_no_nul (s : cstr) :
  NUL ∉ s -> NUL ∉ utils_func.trim_whitespace s.
Proof.
  induction s as [|c s IH]; [done|]. intros [Hc Hs]%not_elem_of_cons. cbn.
  destruct (libc.isspace c); cbn; [by apply IH|].
  apply not_elem_of_cons. split; [done|by apply IH].
Qed.

(** A comment line stays one when its whitespace is deleted. *)
Lemma comment_survives_trim (s : cstr) :
  NUL ∉ s -> libc.strncmp s (lit "--") 2 = 0 ->
  exists r, utils_func.trim_whitespace s = "-"%char :: "-"%char :: r.
Proof.
  intros Hs H. apply strncmp_zero in H; [|done|by_evaluation].
  destruct s as [|x [|y s]]; try done. cbn in H. injection H as -> ->.
  cbn. by eexists.
Qed.

Lemma split_handle_none (s : cstr) :
  "="%char ∉ s -> split_handle s = (None, s).
Proof. intros H. unfold split_handle. by rewrite strchr_none. Qed.

Lemma split_handle_some (h c : cstr) :
  "="%char ∉ h -> split_handle (h ++ "="%char :: c) = (Some h, c).
Proof.
  intros H. unfold split_handle. rewrite strchr_found by done.
  rewrite take_app_length. f_equal.
  replace (S (List.length h)) with (List.length (h ++ ["="%char]))
    by (rewrite length_app; cbn; lia).
  replace (h ++ "="%char :: c) with ((h ++ ["="%char]) ++ c) by (by list_norm).
  by rewrite drop_app_length.
Qed.

(** X8. The result handle is cut off and dropped: a command compiles to
    the same operator with or without [handle=] in front of it. *)
Theorem parse_command_drops_handle (h c : cstr) (fd : Z)
    (ctx : option ClientContext) :
  "="%char ∉ h -> "="%char ∉ c ->
  libc.strncmp (h ++ "="%char :: c) (lit "--") 2 <> 0 ->
  libc.strncmp c (lit "--") 2 <> 0 ->
  parse_command (h ++ "="%char :: c) fd ctx = parse_command c fd ctx.
Proof.
  intros Hh Hc Hn1 Hn2.
  rewrite !parse_command_not_comment by done.
  by rewrite split_handle_some, split_handle_none.
Qed.

Lemma parse_command_drops_handle_witness :
  parse_command (lit "s1=shutdown") 4 None = parse_command (lit "shutdown") 4 None.
Proof.
  apply (parse_command_drops_handle (lit "s1") (lit "shutdown")); by_evaluation.
Defined.

(** A comment marker behind a handle is no comment: the check reads
    the first two characters of the line only. *)
Lemma comment_behind_handle :
  (parse_command (lit "s1=--note") 4 None).2
  = Ok (Some {| operator_fields := error_dbo error_command; client_fd := 4;
                context := None |}).
Proof. reflexivity. Qed.

(** Any command text that starts with [shutdown] compiles to the
    Shutdown operator, whatever follows the keyword. *)
Lemma parse_keyword_shutdown (rest : cstr) :
  parse_keyword (lit "shutdown" ++ rest) = Ok shutdown_operator.
Proof. unfold parse_keyword. cbn. by rewrite ?strncmp_none. Qed.

Lemma parse_keyword_create_db (rest : cstr) :
  parse_keyword (lit "create(db," ++ rest) = Ok (parse_create_db rest).
Proof. unfold parse_keyword. cbn. by rewrite ?strncmp_none. Qed.

Lemma parse_keyword_create_tbl (rest : cstr) :
  parse_keyword (lit "create(tbl," ++ rest) = parse_create_tbl rest.
Proof. unfold parse_keyword. cbn. by rewrite ?strncmp_none. Qed.

Lemma parse_keyword_create_col (rest : cstr) :
  parse_keyword (lit "create(col," ++ rest) = parse_create_col rest.
Proof. unfold parse_keyword. cbn. by rewrite ?strncmp_none. Qed.

Lemma parse_keyword_load (rest : cstr) :
  parse_keyword (lit "load(" ++ rest) = Ok (parse_load rest).
Proof. unfold parse_keyword. cbn. by rewrite ?strncmp_none. Qed.

Lemma parse_keyword_insert (rest : cstr) :
  parse_keyword (lit "relational_insert" ++ rest) = Undefined.
Proof. unfold parse_keyword. cbn. by rewrite ?strncmp_none. Qed.

End lines.

(** ** A command from its receipt to its reply *)

Section turns.

Import parse server.
Context {Catalog : Type} {manager : db_manager Catalog}.

Lemma until_nul_id (s : cstr) : NUL ∉ s -> libc.until_nul s = s.
Proof.
  induction s as [|c s IH]; [done|]. intros [Hc Hs]%not_elem_of_cons. cbn.
  rewrite bool_decide_eq_false_2 by done. by rewrite IH.
Qed.

(** A line without [=] that is no comment is compiled from its text
    with the whitespace deleted, and the loop goes on unless that text
    starts with [shutdown]. *)
Lemma handle_command_plain (p : cstr) (fd : Z) (w : world Catalog) :
  NUL ∉ p -> "="%char ∉ p -> libc.strncmp p (lit "--") 2 <> 0 ->
  handle_command p fd w
  = (fields ← parse_keyword (utils_func.trim_whitespace p);
     '(response, w') ← execute_DbOperator
                         (Some {| operator_fields := fields; client_fd := fd;
                                  context := None |}) w;
     if libc.strncmp (utils_func.trim_whitespace p) (lit "shutdown") 8 =? 0
     then Ok (leave, w')
     else Ok (reply OK_WAIT_FOR_RESPONSE response, w')).
Proof.
  intros Hn He Hc. unfold handle_command, payload_after.
  rewrite until_nul_id by done.
  rewrite parse_command_not_comment by done.
  rewrite split_handle_none by done. cbn [snd].
  apply Z.eqb_neq in Hc. rewrite Hc. rewrite strchr_none by done.
  by destruct (parse_keyword (utils_func.trim_whitespace p)).
Qed.

(** A line that starts with a keyword and holds no whitespace. *)
Lemma keyword_line (kw : string) (args : cstr) :
  Forall (fun c => libc.isspace c = false) (lit kw) ->
  Forall (fun c => libc.isspace c = false) args ->
  utils_func.trim_whitespace (lit kw ++ args) = lit kw ++ args.
Proof. intros H1 H2. apply trim_whitespace_id. by apply Forall_app. Qed.

(** X9. [create(db,"name")], from receipt to reply: one call of
    [create_db] with the name, [current_db] set to what it returned,
    and the reply says success exactly when that was not NULL. *)
Theorem handle_create_db (name : cstr) (fd : Z) (w : world Catalog) :
  NUL ∉ name -> "="%char ∉ name -> dquote ∉ name ->
  Forall (fun c => libc.isspace c = false) name ->
  Z.of_nat (List.length name) + 3 <= libc.INT_MAX ->
  handle_command (lit "create(db," ++ dquote :: name ++ [dquote; ")"%char]) fd w
  = Ok (reply OK_WAIT_FOR_RESPONSE
          (answer (if (create_db name (catalog w)).1 is Some _
                   then "create database successfully."
                   else "create database failed.")),
        set_current_db (create_db name (catalog w)).1
          (called (call_create_db name) (create_db name (catalog w)).2 w)).
Proof.
  intros Hn He Hq Hs Hlen.
  set (args := dquote :: name ++ [dquote; ")"%char]).
  assert (NUL ∉ args) as Hna.
  { unfold args. apply not_elem_of_cons. split; [done|].
    apply not_elem_of_app. split; [done|]. by_evaluation. }
  assert ("="%char ∉ args) as Hea.
  { unfold args. apply not_elem_of_cons. split; [done|].
    apply not_elem_of_app. split; [done|]. by_evaluation. }
  assert (Forall (fun c => libc.isspace c = false) args) as Hsa.
  { unfold args. apply Forall_cons. split; [done|].
    apply Forall_app. split; [done|]. by repeat constructor. }
  rewrite handle_command_plain.
  2:{ apply not_elem_of_app. split; [by_evaluation|done]. }
  2:{ apply not_elem_of_app. split; [by_evaluation|done]. }
  2:{ by cbn. }
  rewrite keyword_line by (done || by repeat constructor).
  rewrite parse_keyword_create_db.
  assert (trim_quotes args = name ++ [")"%char]) as Etq.
  { unfold args, trim_quotes.
    assert (forall s, dquote ∉ s -> utils_func.trim_quote s = s) as Hid.
    { induction s as [|c s IH]; [done|]. intros [? ?]%not_elem_of_cons. cbn.
      rewrite bool_decide_eq_true_2 by done. by rewrite IH. }
    assert (forall a b, utils_func.trim_quote (a ++ b)
                        = utils_func.trim_quote a ++ utils_func.trim_quote b)
      as Happ.
    { induction a as [|c a IH]; [done|]. intros b. cbn.
      case_bool_decide; cbn; by rewrite IH. }
    cbn. rewrite bool_decide_eq_false_2 by (intros H; by apply H).
    rewrite Happ, Hid by done. reflexivity. }
  destruct (create_db_closing args) as [Hyes _].
  { unfold args. cbn [List.length]. rewrite length_app. cbn. lia. }
  rewrite (Hyes name Etq). cbn.
  by destruct (create_db name (catalog w)) as [[db|] cat].
Qed.


(** X10. [create(tbl,t,d,n)], from receipt to reply: a count that converts
    to 0 is answered by the error line, with no call into the
    catalogue and the catalogue as it was; otherwise [create_table] is
    called once, with the database, the qualified name [d.t] and the
    count, and the reply says success exactly when it did not return
    NULL. The current database stays in both cases. *)
Theorem handle_create_tbl (t d n : cstr) (fd : Z) (w : world Catalog) :
  NUL ∉ t ++ d ++ n -> "="%char ∉ t ++ d ++ n -> ","%char ∉ t ++ d ++ n ->
  Forall (fun c => libc.isspace c = false) (t ++ d ++ n) ->
  Z.of_nat (List.length n) < libc.INT_MAX ->
  let count := libc.to_size_t (libc.atoi n) in
  let name := d ++ "."%char :: trim_quotes t in
  exists w',
    handle_command
      (lit "create(tbl," ++ t ++ ","%char :: d ++ ","%char :: n ++ [")"%char])
      fd w
    = Ok (reply OK_WAIT_FOR_RESPONSE
            (answer
               (if count <? 1 then "error command, please try again."
                else if (create_table d name count (catalog w)).1 is Some _
                     then "create table successfully."
                     else "create table failed.")), w')
    /\ calls w'
       = (if count <? 1 then calls w
          else calls w ++ [call_create_table d name count])
    /\ catalog w'
       = (if count <? 1 then catalog w
          else (create_table d name count (catalog w)).2)
    /\ current_db w' = current_db w.
Proof.
  intros Hn He Hc Hs Hlen count name.
  apply not_elem_of_app in Hn as [Hnt [Hnd Hnn]%not_elem_of_app].
  apply not_elem_of_app in He as [Het [Hed Hen]%not_elem_of_app].
  apply not_elem_of_app in Hc as [Hct [Hcd Hcn]%not_elem_of_app].
  apply Forall_app in Hs as [Hst [Hsd Hsn]%Forall_app].
  set (args := t ++ ","%char :: d ++ ","%char :: n ++ [")"%char]).
  assert (forall c : ascii, c ∉ t -> c ∉ d -> c ∉ n -> c <> ","%char ->
                            c <> ")"%char -> c ∉ args) as Hargs.
  { intros c ? ? ? ? ?. unfold args.
    do 2 (apply not_elem_of_app; split; [done|];
          apply not_elem_of_cons; split; [done|]).
    by apply not_in_snoc. }
  assert (Forall (fun c => libc.isspace c = false) args) as Hsa.
  { unfold args. do 2 (apply Forall_app; split; [done|];
                       apply Forall_cons; split; [done|]).
    apply Forall_app. split; [done|]. by repeat constructor. }
  rewrite handle_command_plain.
  2:{ apply not_elem_of_app. split; [by_evaluation|by apply Hargs]. }
  2:{ apply not_elem_of_app. split; [by_evaluation|by apply Hargs]. }
  2:{ by cbn. }
  rewrite keyword_line by (done || by repeat constructor).
  rewrite parse_keyword_create_tbl. unfold args.
  rewrite (create_tbl_three t d n []); try done; [|by left].
  fold count name. cbn.
  destruct (count <? 1); cbn; [by eexists|].
  destruct (create_table d name count (catalog w)) as [[tbl|] cat];
    by eexists.
Qed.

Lemma execute_shutdown (fd : Z) (ctx : option ClientContext)
    (w : world Catalog) :
  exists w',
    execute_DbOperator
      (Some {| operator_fields := shutdown_operator; client_fd := fd;
               context := ctx |}) w
    = Ok (answer "persist all the data and shutdown the server.", w')
    /\ calls w' = calls w ++ [call_persist_data_csv; call_free_db_store;
                              call_free_tbl_store; call_free_col_store].
Proof.
  unfold execute_DbOperator. cbn.
  destruct (persist_data_csv (catalog w)) as [r cat]. cbn.
  eexists. split; [reflexivity|].
  destruct (r =? 0); cbn; by rewrite <- !app_assoc.
Qed.

(** X11. A line whose text starts with [shutdown] persists, tears the
    stores down and leaves the loop: the response is computed and not
    sent. *)
Theorem handle_shutdown (p rest : cstr) (fd : Z) (w : world Catalog) :
  NUL ∉ p -> "="%char ∉ p ->
  utils_func.trim_whitespace p = lit "shutdown" ++ rest ->
  exists w',
    execute_DbOperator
      (Some {| operator_fields := shutdown_operator; client_fd := fd;
               context := None |}) w
    = Ok (answer "persist all the data and shutdown the server.", w')
    /\ calls w' = calls w ++ [call_persist_data_csv; call_free_db_store;
                              call_free_tbl_store; call_free_col_store]
    /\ handle_command p fd w = Ok (leave, w').
Proof.
  intros Hn He Ht.
  destruct (execute_shutdown fd None w) as (w' & Hx & Hcalls).
  exists w'. split; [done|]. split; [done|].
  rewrite handle_command_plain; [|done|done|].
  - rewrite Ht, parse_keyword_shutdown. cbn [mbind result_bind].
    rewrite Hx. cbn. by rewrite strncmp_none.
  - intros H. apply comment_survives_trim in H as [r Hr]; [|done].
    rewrite Ht in Hr. done.
Qed.

(** X12. A [relational_insert] line has no defined outcome: its handler
    has no body. *)
Theorem handle_relational_insert (p rest : cstr) (fd : Z) (w : world Catalog) :
  NUL ∉ p -> "="%char ∉ p ->
  utils_func.trim_whitespace p = lit "relational_insert" ++ rest ->
  handle_command p fd w = Undefined.
Proof.
  intros Hn He Ht.
  rewrite handle_command_plain; [|done|done|].
  - by rewrite Ht, parse_keyword_insert.
  - intros H. apply comment_survives_trim in H as [r Hr]; [|done].
    rewrite Ht in Hr. done.
Qed.

(** X13. The message an Error operator carries never reaches the client:
    whatever the compiler put into it, the reply is the one fixed error
    line (or none, when the loop is left); the catalogue is not called
    and stays as it was, and so does the current database. *)
Theorem usage_message_is_not_sent (recv_buffer : list ascii) (fd : Z)
    (w : world Catalog) (dbo : DbOperator) (message : cstr) :
  (parse_command (libc.until_nul recv_buffer) fd None).2 = Ok (Some dbo) ->
  operator_fields dbo = err_cmd_operator message ->
  exists t w',
    handle_command recv_buffer fd w = Ok (t, w')
    /\ (t = leave
        \/ exists st,
             t = reply st (lit "error command, please try again." ++ [newline]))
    /\ calls w' = calls w
    /\ catalog w' = catalog w
    /\ current_db w' = current_db w.
Proof.
  intros Hp Hf. unfold handle_command.
  destruct (parse_command (libc.until_nul recv_buffer) fd None) as [st r].
  cbn in Hp. subst r. cbn. rewrite Hf.
  destruct (libc.strncmp _ _ _ =? 0); eexists _, _; (split; [reflexivity|]);
    (split; [|done]); [by left|right; by eexists].
Qed.

(** X14. Dispatch of an operator that exists always answers, with one line
    that ends in a newline; it only adds to the trace of calls and to
    the error log. *)
Theorem execute_answers_one_line (dbo : DbOperator) (w : world Catalog) :
  exists response w',
    execute_DbOperator (Some dbo) w = Ok (response, w')
    /\ List.last response NUL = newline
    /\ (newline ∉ removelast response)
    /\ calls w `prefix_of` calls w'
    /\ stderr w `prefix_of` stderr w'.
Proof.
  unfold execute_DbOperator.
  destruct (operator_fields dbo); cbn;
    repeat match goal with
    | |- context [let '(_, _) := ?e in _] => destruct e
    | |- context [match ?o with Some _ => _ | None => _ end] => destruct o
    | |- context [if ?b then _ else _] => destruct b
    end;
    eexists _, _; (split; [reflexivity|]); cbn;
    (split; [reflexivity|]); (split; [by_evaluation|]);
    split; rewrite <- ?app_assoc; try apply prefix_app_r; try done;
    by eexists.
Qed.

End turns.

Lemma handle_create_db_witness :
  server.handle_command (manager := samples.accepting)
    (lit "create(db," ++ dquote :: lit "db1" ++ [dquote; ")"%char]) 4
    (samples.idle ())
  = Ok (server.reply parse.OK_WAIT_FOR_RESPONSE
          (lit "create database successfully." ++ [newline]),
        {| server.catalog := (); server.current_db := Some 1%positive;
           server.stderr := [];
           server.calls := [server.call_create_db (lit "db1")] |}).
Proof.
  apply (handle_create_db (manager := samples.accepting) (lit "db1") 4
           (samples.idle ())); by_evaluation.
Defined.


Lemma handle_create_tbl_witness :
  exists w',
    server.handle_command (manager := samples.accepting)
      (samples.create_grades "0") 4 (samples.idle ())
    = Ok (server.reply parse.OK_WAIT_FOR_RESPONSE
            (lit "error command, please try again." ++ [newline]), w')
    /\ server.calls w' = []
  /\ exists w'',
    server.handle_command (manager := samples.accepting)
      (samples.create_grades "2") 4 (samples.idle ())
    = Ok (server.reply parse.OK_WAIT_FOR_RESPONSE
            (lit "create table successfully." ++ [newline]), w'')
    /\ server.calls w''
       = [server.call_create_table (lit "db1") (lit "db1.grades") 2].
Proof.
  destruct (handle_create_tbl (manager := samples.accepting)
              (dquote :: lit "grades" ++ [dquote]) (lit "db1") (lit "0") 4
              (samples.idle ())) as (w' & H & Hcalls & _); try by_evaluation.
  destruct (handle_create_tbl (manager := samples.accepting)
              (dquote :: lit "grades" ++ [dquote]) (lit "db1") (lit "2") 4
              (samples.idle ())) as (w'' & H' & Hcalls' & _); try by_evaluation.
  exists w'. split; [exact H|]. split; [exact Hcalls|].
  exists w''. split; [exact H'|exact Hcalls'].
Defined.

Lemma handle_shutdown_witness :
  exists w',
    server.calls w' = [server.call_persist_data_csv; server.call_free_db_store;
                       server.call_free_tbl_store; server.call_free_col_store]
    /\ server.handle_command (manager := samples.failing_disk)
         (lit " shutdown now") 4 (samples.idle [])
       = Ok (server.leave, w').
Proof.
  destruct (handle_shutdown (manager := samples.failing_disk)
              (lit " shutdown now") (lit "now") 4 (samples.idle []))
    as (w' & _ & Hcalls & Hturn); try by_evaluation.
  exists w'. by split.
Defined.

Lemma handle_relational_insert_witness :
  server.handle_command (manager := samples.accepting)
    (lit "relational_insert(db1.grades,1,2)") 4 (samples.idle ())
  = Undefined.
Proof.
  apply (handle_relational_insert (manager := samples.accepting)
           (lit "relational_insert(db1.grades,1,2)") (lit "(db1.grades,1,2)"));
    by_evaluation.
Defined.

Lemma usage_message_is_not_sent_witness :
  (parse.parse_command (lit "create(tbl,grades,db1") 4 None).2
  = Ok (Some {| parse.operator_fields :=
                  parse.err_cmd_operator parse.create_tbl_usage;
                parse.client_fd := 4; parse.context := None |})
  /\ exists t w',
       server.handle_command (manager := samples.accepting)
         (lit "create(tbl,grades,db1") 4 (samples.idle ())
       = Ok (t, w')
       /\ (t = server.leave
           \/ exists st,
                t = server.reply st
                      (lit "error command, please try again." ++ [newline]))
       /\ server.calls w' = []
       /\ server.catalog w' = ()
       /\ server.current_db w' = None.
Proof.
  split; [reflexivity|].
  apply (usage_message_is_not_sent (manager := samples.accepting)
           (lit "create(tbl,grades,db1") 4 (samples.idle ())
           {| parse.operator_fields :=
                parse.err_cmd_operator parse.create_tbl_usage;
              parse.client_fd := 4; parse.context := None |}
           parse.create_tbl_usage); reflexivity.
Defined.

Section in_place.

Import utils_func_in_place.

Lemma filter_length_le (keep : ascii -> bool) (s : cstr) :
  (List.length (List.filter keep s) <= List.length s)%nat.
Proof. induction s as [|c s IH]; cbn; [lia|]. destruct (keep c); cbn; lia. Qed.

Lemma insert_head_drop (k : nat) (l : list ascii) (c : ascii) :
  (k < List.length l)%nat -> <[O := c]> (drop k l) = c :: drop (S k) l.
Proof.
  revert l. induction k as [|k IH]; intros [|x l] H; cbn in *; try lia.
  - by rewrite drop_0.
  - apply IH. lia.
Qed.

(** The loop invariant: the characters kept so far stand at the front,
    every byte from [current] on is still the original one. *)
Lemma trim_loop_spec (keep : ascii -> bool) (pre orig : list ascii)
    (todo done : cstr) (tail : list ascii) :
  orig = done ++ todo ++ tail ->
  let kept := List.filter keep done in
  trim_loop keep (List.length todo)
    (pre ++ kept ++ drop (List.length kept) orig)
    (List.length pre) (List.length done) (List.length kept)
  = (pre ++ List.filter keep (done ++ todo)
         ++ drop (List.length (List.filter keep (done ++ todo))) orig,
     List.length (List.filter keep (done ++ todo))).
Proof.
  revert done. induction todo as [|c todo IH]; intros done Horig kept.
  - cbn. by rewrite app_nil_r.
  - pose proof (filter_length_le keep done) as Hk. fold kept in Hk.
    cbn [List.length trim_loop].
    assert ((pre ++ kept ++ drop (List.length kept) orig)
            !! (List.length pre + List.length done)%nat = Some c) as ->.
    { rewrite lookup_app_r by lia. rewrite Nat.add_comm, Nat.add_sub.
      rewrite lookup_app_r by lia. rewrite lookup_drop.
      replace (List.length kept + (List.length done - List.length kept))%nat
        with (List.length done + 0)%nat by lia.
      rewrite Horig. by rewrite lookup_app_r, Nat.add_comm, Nat.add_sub by lia. }
    assert (orig = (done ++ [c]) ++ todo ++ tail) as Horig'
      by (rewrite Horig; by list_norm).
    pose proof (IH (done ++ [c]) Horig') as IH'. cbn zeta in IH'.
    replace ((done ++ [c]) ++ todo) with (done ++ c :: todo) in IH'
      by (by list_norm).
    assert (List.filter keep (done ++ [c])
            = kept ++ (if keep c then [c] else [])) as Hf
      by (rewrite List.filter_app; cbn; by destruct (keep c)).
    assert (List.length (done ++ [c]) = S (List.length done)) as Hd
      by (rewrite length_app; cbn; lia).
    rewrite Hf, Hd in IH'. clear Hf Hd.
    destruct (keep c).
    + rewrite length_app in IH'. cbn [List.length] in IH'.
      replace (List.length kept + 1)%nat with (S (List.length kept)) in IH'
        by lia.
      rewrite <- IH'. f_equal.
      rewrite insert_app_r. f_equal.
      replace (List.length kept) with (List.length kept + 0)%nat at 1 by lia.
      rewrite insert_app_r, <- app_assoc. f_equal.
      apply insert_head_drop. rewrite Horig, !length_app. cbn. lia.
    + rewrite app_nil_r in IH'. exact IH'.
Qed.

(** [trim] on the string at [pre]: the kept characters and a
    terminator are written over its front, every other byte of the
    buffer stays. *)
Lemma trim_spec (keep : ascii -> bool) (pre s rest : list ascii) :
  NUL ∉ s -> Z.of_nat (List.length s) <= libc.INT_MAX ->
  trim keep (pre ++ s ++ NUL :: rest) (List.length pre)
  = cbuf.rewrite_at (pre ++ s ++ NUL :: rest) (List.length pre)
      (List.filter keep s).
Proof.
  intros Hs Hlen. unfold trim, cbuf.strlen.
  rewrite c_string_at by done. rewrite to_int_small by lia.
  rewrite Nat2Z.id.
  pose proof (trim_loop_spec keep pre (s ++ NUL :: rest) s [] (NUL :: rest)
                eq_refl) as H.
  cbn [List.filter List.length drop app] in H. rewrite drop_0 in H.
  rewrite H. clear H.
  pose proof (filter_length_le keep s) as Hk.
  set (kept := List.filter keep s) in *.
  unfold cbuf.rewrite_at. rewrite take_app_length.
  rewrite insert_app_r. f_equal.
  replace (List.length kept) with (List.length kept + 0)%nat at 1 by lia.
  rewrite insert_app_r. f_equal.
  rewrite <- Nat.add_assoc, drop_app_add'; [|done].
  replace (List.length kept + 1)%nat with (S (List.length kept)) by lia.
  apply insert_head_drop. rewrite length_app. cbn. lia.
Qed.

Lemma trim_newline_filter (s : cstr) :
  utils_func.trim_newline s = List.filter keep_newline s.
Proof.
  induction s as [|c s IH]; [done|]. cbn. unfold keep_newline at 1.
  by destruct (negb _); rewrite IH.
Qed.

Lemma trim_whitespace_filter' (s : cstr) :
  utils_func.trim_whitespace s = List.filter keep_whitespace s.
Proof.
  induction s as [|c s IH]; [done|]. cbn. unfold keep_whitespace at 1.
  by destruct (negb _); rewrite IH.
Qed.

Lemma trim_parenthesis_filter (s : cstr) :
  utils_func.trim_parenthesis s = List.filter keep_parenthesis s.
Proof.
  induction s as [|c s IH]; [done|]. cbn. unfold keep_parenthesis at 1.
  by destruct (negb _); rewrite IH.
Qed.

Lemma trim_quote_filter (s : cstr) :
  utils_func.trim_quote s = List.filter keep_quote s.
Proof.
  induction s as [|c s IH]; [done|]. cbn. unfold keep_quote at 1.
  by destruct (bool_decide _); rewrite IH.
Qed.

(** X1. The four trim functions, run in place on the string at [pre] of a
    buffer, leave there the string their comments describe (the
    characters that are no newline, whitespace, parenthesis or quote,
    in order) and change no byte in front of the string nor behind its
    old terminator; the buffer keeps its length. *)
Theorem trim_in_place (pre s rest : list ascii) :
  NUL ∉ s -> Z.of_nat (List.length s) <= libc.INT_MAX ->
  trims_to trim_newline utils_func.trim_newline pre s rest
  /\ trims_to trim_whitespace utils_func.trim_whitespace pre s rest
  /\ trims_to trim_parenthesis utils_func.trim_parenthesis pre s rest
  /\ trims_to trim_quote utils_func.trim_quote pre s rest.
Proof.
  intros Hs Hlen.
  assert (forall keep, trims_to (trim keep) (List.filter keep) pre s rest) as H.
  { intros keep. unfold trims_to. rewrite trim_spec by done.
    pose proof (filter_length_le keep s) as Hk.
    set (kept := List.filter keep s) in *.
    assert (NUL ∉ kept) as Hnk.
    { intros Hin. apply Hs. apply list_elem_of_In in Hin.
      apply List.filter_In in Hin as [Hin _]. by apply list_elem_of_In. }
    unfold cbuf.rewrite_at. rewrite take_app_length.
    assert (drop (List.length pre + List.length kept + 1)
              (pre ++ s ++ NUL :: rest)
            = drop (List.length kept + 1) (s ++ [NUL]) ++ rest) as ->.
    { rewrite <- Nat.add_assoc, drop_app_add'; [|done].
      replace (s ++ NUL :: rest) with ((s ++ [NUL]) ++ rest)
        by (by rewrite <- app_assoc).
      rewrite drop_app_le; [done|]. rewrite length_app. cbn. lia. }
    split.
    - by apply c_string_at.
    - exists (drop (List.length kept + 1) (s ++ [NUL])). split.
      + by rewrite <- !app_assoc.
      + rewrite length_app. cbn. rewrite length_drop, length_app. cbn. lia. }
  unfold trims_to in *.
  rewrite trim_newline_filter, trim_whitespace_filter',
    trim_parenthesis_filter, trim_quote_filter.
  repeat split; apply H.
Qed.

Lemma trim_in_place_witness :
  let pre := lit "load(" in
  let rest := lit "tail" in
  trim_quote (pre ++ (dquote :: lit "a" ++ [dquote; ")"%char]) ++ NUL :: rest) 5
  = pre ++ lit "a)" ++ NUL :: ")"%char :: NUL :: rest
  /\ trims_to trim_quote utils_func.trim_quote pre
       (dquote :: lit "a" ++ [dquote; ")"%char]) rest.
Proof.
  split; [reflexivity|].
  apply (trim_in_place (lit "load(") (dquote :: lit "a" ++ [dquote; ")"%char])
           (lit "tail")); by_evaluation.
Defined.

End in_place.

(** ** More on the batch queue *)

Section queue_edges.

Import parse db_batch_queue shape.
Context {abi : layout}.

(** X15. [create_node] returns NULL exactly when the node itself is not
    allocated, and then leaves one line in the log and nothing else;
    the allocation of the handle copy is not tested, and a refused one
    is written through. *)
Theorem create_node_allocation (qry : option addr) (m : memory) :
  (forall ok_handle,
     create_node qry false ok_handle m
     = Ok (None, log_err (lit "create batch queue node failed." ++ [newline]) m))
  /\ create_node qry true false m = Undefined
  /\ (forall ok_handle m', create_node qry true ok_handle m <> Ok (None, m')).
Proof.
  split; [done|]. split.
  - unfold create_node, malloc. cbn. destruct qry as [q|]; [|done].
    destruct (operators m !! q) as [dbo|]; [|done]. cbn.
    by destruct (operator_fields dbo).
  - intros ok_handle m' H. by apply create_node_null in H as [? _].
Qed.

(** X16. [add_batch_queue] with no queue or no node returns 1, writes one
    line to the log and leaves queue and nodes as they are. *)
Theorem add_batch_queue_null (node : option addr) (m : memory) :
  bq m = None \/ node = None ->
  add_batch_queue node m
  = Ok (1, log_err (lit "The queue or the adding node is null." ++ [newline]) m).
Proof.
  intros [H| ->]; unfold add_batch_queue.
  - by rewrite H.
  - by destruct (bq m).
Qed.

(** X17. When the queue record is allocated and the sentinel is not,
    [create_batch_queue] returns 1 and frees the record but leaves [bq]
    pointing to it: every later use of the queue reads freed memory. *)
Theorem create_batch_queue_dangling (junk : bqNode) (m : memory)
    (node : addr) :
  let r := create_batch_queue true false junk m in
  r.1 = 1
  /\ bq r.2 = Some (brk m)
  /\ queues r.2 !! brk m = None
  /\ is_bq_empty r.2 = Undefined
  /\ add_batch_queue (Some node) r.2 = Undefined
  /\ (forall A fuel (visit : addr -> bqNode -> result A),
        traverse fuel r.2 visit = Undefined).
Proof.
  unfold create_batch_queue, malloc, traverse, is_bq_empty, add_batch_queue,
    set_queues, set_bq.
  cbn [fst snd bq queues nodes mbind result_bind]. by rewrite !lookup_delete_eq.
Qed.

Lemma fresh_queue_empty (junk : bqNode) (m : memory) :
  let r := create_batch_queue true true junk m in
  r.1 = 0
  /\ (exists Q, bq r.2 = Some (brk m) /\ queues r.2 !! brk m = Some Q
        /\ length Q = 0 /\ head Q = tail Q)
  /\ is_bq_empty r.2 = Ok 0
  /\ (forall A fuel (visit : addr -> bqNode -> result A),
        traverse fuel r.2 visit = Ok [])
  /\ (forall q, q <> brk m -> queues r.2 !! q = queues m !! q).
Proof.
  unfold create_batch_queue, malloc, traverse, is_bq_empty, set_queues,
    set_nodes, set_bq.
  cbn [fst snd bq queues nodes mbind result_bind]. rewrite !lookup_insert_eq.
  cbn [head tail length]. rewrite decide_True by done.
  split; [done|]. split; [by eexists|]. repeat split; try done.
  intros q Hq. by rewrite lookup_insert_ne.
Qed.

(** X18. Whatever was queued before, a [create_batch_queue] that returns 0
    leaves an empty queue: the counter is 0, [is_bq_empty] answers 0
    and the traversal visits nothing. The former queue is not freed. *)
Theorem create_batch_queue_empty (junk : bqNode) (m : memory) :
  let r := create_batch_queue true true junk m in
  r.1 = 0
  /\ (exists Q, bq r.2 = Some (brk m) /\ queues r.2 !! brk m = Some Q
        /\ length Q = 0 /\ head Q = tail Q)
  /\ is_bq_empty r.2 = Ok 0
  /\ (forall A fuel (visit : addr -> bqNode -> result A),
        traverse fuel r.2 visit = Ok [])
  /\ (forall q, q <> brk m -> queues r.2 !! q = queues m !! q).
Proof. exact (fresh_queue_empty junk m). Qed.

End queue_edges.

Lemma add_batch_queue_null_witness :
  db_batch_queue.add_batch_queue (abi := db_batch_queue.lp64) None
    (db_batch_queue.create_batch_queue true true samples.no_junk (db_batch_queue.start ∅)).2
  = Ok (1, db_batch_queue.log_err (lit "The queue or the adding node is null." ++ [newline])
             (db_batch_queue.create_batch_queue true true samples.no_junk (db_batch_queue.start ∅)).2).
Proof. apply (add_batch_queue_null (abi := db_batch_queue.lp64)). by right. Defined.

Section queue_order.

Import parse db_batch_queue shape.
Context {abi : layout}.

Lemma run_app (p1 p2 : list op) (m : memory) :
  run (p1 ++ p2) m = (m1 ← run p1 m; run p2 m1).
Proof.
  revert m. induction p1 as [|o p1 IH]; intros m; [done|]. cbn.
  destruct (step o m); cbn; [apply IH|done|done].
Qed.

(** After an enqueue that returned 0 the traversal visits the nodes it
    visited before, which read as they did, and then the new node. *)
Lemma enqueue_then_traverse {A : Type}
    (visit : memory -> addr -> bqNode -> result A)
    (m m' : memory) (q : addr) (Q : batchQueue) (qry : option addr)
    (ok_node ok_handle : bool) (xs : list A) (x : A) (fuel : nat) :
  (forall m1 m2 a1 a2 n1 n2,
     operators m1 = operators m2 -> query n1 = query n2 ->
     share_query_handle n1 = share_query_handle n2 ->
     visit m1 a1 n1 = visit m2 a2 n2) ->
  inv m -> bq m = Some q -> queues m !! q = Some Q ->
  traverse fuel m (visit m) = Ok xs ->
  enqueue qry ok_node ok_handle m = Ok (0, m') ->
  (forall nd, nodes m' !! brk m = Some nd -> visit m' (brk m) nd = Ok x) ->
  forall fuel', (List.length xs + 1 < fuel')%nat ->
    traverse fuel' m' (visit m') = Ok (xs ++ [x]).
Proof.
  intros Hstable Hinv Hbq HQ Hxs He Hnew fuel' Hfuel.
  destruct (live_ok _ Hinv q Q Hbq HQ) as [l Hok].
  destruct (enqueue_appends _ _ _ _ _ _ _ _ _ Hinv Hbq HQ Hok He)
    as (Hbq' & Hops & [(? & _)|(_ & _ & Q' & HQ' & _ & _ & _ & _ & _ & Hold
                                & _ & Hok')]); [done|].
  pose proof (traverse_queue_ok_inv _ _ _ _ _ _ _ Hbq HQ Hok Hxs) as HF.
  pose proof (Forall2_length _ _ _ HF) as Hlenl.
  eapply traverse_queue_ok; eauto.
  - apply Forall2_app.
    + eapply Forall2_impl; [exact HF|]. cbn.
      intros a y (na & Ha & Hr) na' Ha'.
      destruct (Hold a na Ha) as (nb & Hb & Hq1 & Hh1).
      assert (na' = nb) as -> by congruence.
      rewrite <- Hr. by apply Hstable.
    + constructor; [|constructor]. exact Hnew.
  - rewrite length_app. cbn. lia.
Qed.

Lemma print_query_stable (m1 m2 : memory) (a1 a2 : addr) (n1 n2 : bqNode) :
  operators m1 = operators m2 -> query n1 = query n2 ->
  share_query_handle n1 = share_query_handle n2 ->
  print_query m1 a1 n1 = print_query m2 a2 n2.
Proof. intros H1 H2 _. unfold print_query. by rewrite H1, H2. Qed.

(** X19. The queue is first in, first out: after the queue is created and
    the selections [qs] are enqueued one by one, [show_batch_query]
    prints one line per selection, in the order of arrival. *)
Theorem show_batch_query_arrival_order (ops : gmap addr DbOperator)
    (qs : list addr) (junk : bqNode) :
  Forall (fun q => well_served ops (op_enqueue (Some q) true true)) qs ->
  Z.of_nat (List.length qs) <= length_max ->
  exists m lines,
    run (op_create true true junk
         :: map (fun q => op_enqueue (Some q) true true) qs) (start ops)
    = Ok m
    /\ Forall2 (fun q line => query_line ops q = Some line) qs lines
    /\ forall fuel, (List.length qs < fuel)%nat ->
         show_batch_query fuel m = Ok lines.
Proof.
  intros Hall Hlen.
  enough (exists m lines q0 Q,
            run (op_create true true junk
                 :: map (fun q => op_enqueue (Some q) true true) qs) (start ops)
            = Ok m
            /\ inv m /\ operators m = ops
            /\ bq m = Some q0 /\ queues m !! q0 = Some Q
            /\ length Q = Z.of_nat (List.length qs)
            /\ Forall2 (fun q line => query_line ops q = Some line) qs lines
            /\ forall fuel, (List.length qs < fuel)%nat ->
                 show_batch_query fuel m = Ok lines)
    as (m & lines & _ & _ & ? & _ & _ & _ & _ & _ & ? & ?)
    by (by exists m, lines).
  induction qs as [|q qs IH] using rev_ind.
  - destruct (fresh_queue_empty junk (start ops))
      as (_ & (Q & Hbq & HQ & HL & _) & _ & Hshow & _).
    eexists _, [], _, Q. split; [reflexivity|].
    split; [exact (inv_create_batch_queue true true junk _ (inv_start ops))|].
    split; [done|]. split; [exact Hbq|]. split; [exact HQ|].
    split; [done|]. split; [constructor|]. intros fuel _. apply Hshow.
  - apply Forall_app in Hall as [Hall Hq].
    apply Forall_cons in Hq as [Hq _]. rewrite length_app in Hlen. cbn in Hlen.
    destruct IH as (m & lines & q0 & Q & Hrun & Hinv & Hops & Hbq & HQ & HL
                    & Hlines & Hshow); [done|lia|].
    assert (exists r m', enqueue (Some q) true true m = Ok (r, m'))
      as (r & m' & He).
    { apply enqueue_defined; [done|rewrite Hops; exact Hq|].
      intros q1 Hq1. exists Q. split; [congruence|lia]. }
    destruct (live_ok _ Hinv q0 Q Hbq HQ) as [l Hok].
    destruct (enqueue_appends _ _ _ _ _ _ _ _ _ Hinv Hbq HQ Hok He)
      as (Hbq' & Hops' & [(_ & ? & _)|(-> & _ & Q' & HQ' & _ & _ & HL' & _ & _
                                      & _ & Hnew & _)]); [done|].
    destruct Hnew as (qa & dbo & col & low & high & handle & [= <-] & Hop & Hf
                      & _ & nd & Hnd & Hqnd & _).
    set (line := lit "query: " ++ col ++ lit ", " ++ low ++ lit ", " ++ high
                 ++ lit "." ++ [newline]).
    assert (query_line ops q = Some line) as Hline.
    { unfold query_line. rewrite <- Hops, Hop. cbn. by rewrite Hf. }
    exists m', (lines ++ [line]), q0, Q'.
    split; [|split; [|split; [|split; [|split; [|split; [|split]]]]]].
    + assert (run [op_enqueue (Some q) true true] m = Ok m') as Hr1
        by (cbn [run step]; by rewrite He).
      by rewrite map_app, app_comm_cons, run_app, Hrun.
    + by eapply inv_enqueue.
    + congruence.
    + done.
    + done.
    + rewrite HL', HL, length_app. cbn. lia.
    + apply Forall2_app; [done|by constructor].
    + intros fuel Hfuel. rewrite length_app in Hfuel. cbn in Hfuel.
      pose proof (Forall2_length _ _ _ Hlines) as Hll.
      unfold show_batch_query.
      apply (enqueue_then_traverse print_query m m' q0 Q (Some q) true true
               lines line (S (List.length qs)));
        [exact print_query_stable|done|done|done|apply Hshow; lia|done| |lia].
      intros nd' Hnd'. assert (nd' = nd) as -> by congruence.
      unfold print_query. rewrite Hqnd, Hops', Hop. cbn. by rewrite Hf.
Qed.

(** X20. In every state a run reaches, [is_bq_empty] answers 0 exactly when
    the counter of the live queue is 0. *)
Theorem is_bq_empty_agrees_with_length (ops : gmap addr DbOperator)
    (program : list op) (m : memory) (q : addr) (Q : batchQueue) :
  run program (start ops) = Ok m ->
  bq m = Some q -> queues m !! q = Some Q ->
  (length Q = 0 -> is_bq_empty m = Ok 0)
  /\ (length Q <> 0 -> is_bq_empty m = Ok 1).
Proof.
  intros Hrun Hbq HQ.
  pose proof (inv_run _ _ _ (inv_start ops) Hrun) as Hinv.
  destruct (live_ok _ Hinv q Q Hbq HQ) as [l Hok].
  pose proof (head_is_tail_iff _ _ _ Hok) as Hiff.
  pose proof (counted _ _ _ Hok) as Hc.
  unfold is_bq_empty. rewrite Hbq, HQ.
  split; intros HL; destruct (decide (head Q = tail Q)) as [E|E]; try done.
  - exfalso. apply E, Hiff. destruct l; [done|cbn in Hc; lia].
  - exfalso. apply HL. apply Hiff in E. subst l. by rewrite Hc.
Qed.

(** A walk that reaches a node whose [next] is the node itself never
    ends, whatever the bound. *)
Lemma walk_into_cycle {A : Type} (m' : memory) (nds : gmap addr bqNode)
    (visit : addr -> bqNode -> result A) (l0 : list addr) (t : addr)
    (t' : bqNode) (p : option addr) :
  (forall a nd, exists x, visit a nd = Ok x) ->
  lseg nds p (l0 ++ [t]) -> NoDup (l0 ++ [t]) ->
  nodes m' = <[t := t']> nds -> next t' = Some t ->
  forall fuel, walk fuel m' visit p = OutOfFuel.
Proof.
  intros Htotal Hseg Hnd Hm' Ht'.
  assert (forall fuel, walk fuel m' visit (Some t) = OutOfFuel) as Hcycle.
  { induction fuel as [|fuel IH]; [done|]. cbn.
    rewrite Hm', lookup_insert_eq. destruct (Htotal t t') as [x ->]. cbn.
    by rewrite Ht', IH. }
  revert p Hseg Hnd. induction l0 as [|a l0 IH]; intros p Hseg Hnd fuel.
  - destruct Hseg as (-> & _). apply Hcycle.
  - destruct Hseg as (-> & nd & Ha & Hseg). cbn in Hnd.
    apply NoDup_cons in Hnd as [Hal Hnd].
    destruct fuel as [|fuel]; [done|]. cbn.
    rewrite Hm', lookup_insert_ne by (intros ->; apply Hal; set_solver).
    rewrite Ha. destruct (Htotal a nd) as [x ->]. cbn.
    by rewrite (IH (next nd) Hseg Hnd).
Qed.

(** X21. [add_batch_queue] takes any node: handed the node that already is
    the tail, it returns 0 and links the node to itself, and from then
    on no traversal of the queue comes to an end. *)
Theorem add_tail_again_never_ends (ops : gmap addr DbOperator)
    (program : list op) (m : memory) (q : addr) (Q : batchQueue) :
  run program (start ops) = Ok m ->
  bq m = Some q -> queues m !! q = Some Q ->
  head Q <> tail Q -> length Q <> length_max ->
  exists m',
    add_batch_queue (Some (tail Q)) m = Ok (0, m')
    /\ forall A (visit : addr -> bqNode -> result A) fuel,
         (forall a nd, exists x, visit a nd = Ok x) ->
         traverse fuel m' visit = OutOfFuel.
Proof.
  intros Hrun Hbq HQ Hne Hmax.
  pose proof (inv_run _ _ _ (inv_start ops) Hrun) as Hinv.
  destruct (live_ok _ Hinv q Q Hbq HQ) as [l Hok].
  destruct (tail_allocated _ _ _ Hok) as [t Ht].
  unfold add_batch_queue. rewrite Hbq, HQ, Ht.
  apply Z.eqb_neq in Hmax. rewrite Hmax.
  eexists. split; [reflexivity|].
  intros A visit fuel Htotal.
  assert (l <> []) as Hl by (by rewrite <- (head_is_tail_iff _ _ _ Hok)).
  destruct (chain _ _ _ Hok Hl) as (s & Hs & Hseg).
  destruct (exists_last Hl) as (l0 & tl & ->).
  assert (tail Q = tl) as Etl
    by (by rewrite (tail_last _ _ _ Hok), List.last_last).
  pose proof (distinct _ _ _ Hok) as Hnd. apply NoDup_cons in Hnd as [_ Hnd].
  unfold traverse, is_bq_empty. cbn. rewrite Hbq, lookup_insert_eq. cbn.
  rewrite decide_False by done. cbn.
  rewrite lookup_insert_ne by (intros E; by apply Hne).
  rewrite Hs.
  subst tl.
  by apply (walk_into_cycle _ (nodes m) visit l0 (tail Q)
              {| query := query t; next := Some (tail Q);
                 share_query_handle := share_query_handle t |}).
Qed.

End queue_order.

Lemma show_batch_query_arrival_order_witness :
  exists m lines,
    db_batch_queue.run (abi := db_batch_queue.lp64) samples.enqueue_10_3_7
      (db_batch_queue.start samples.three_selects) = Ok m
    /\ Forall2 (fun q line => query_line samples.three_selects q = Some line)
         [1%positive; 2%positive; 3%positive] lines
    /\ db_batch_queue.show_batch_query 4 m = Ok lines.
Proof.
  destruct (show_batch_query_arrival_order (abi := db_batch_queue.lp64)
              samples.three_selects [1%positive; 2%positive; 3%positive]
              samples.no_junk) as (m & lines & Hrun & Hlines & Hshow).
  - repeat constructor; cbn; eexists _, _, _, _, _, _;
      (split; [reflexivity|]); (split; [by vm_compute|]);
      (split; [reflexivity|]); by_evaluation.
  - by_evaluation.
  - exists m, lines. split; [exact Hrun|]. split; [exact Hlines|].
    apply Hshow. cbn. lia.
Defined.

(** The state the sample run reaches. *)
Lemma sample_run_state :
  exists m q Q,
    db_batch_queue.run (abi := db_batch_queue.lp64) samples.enqueue_10_3_7
      (db_batch_queue.start samples.three_selects) = Ok m
    /\ db_batch_queue.bq m = Some q
    /\ db_batch_queue.queues m !! q = Some Q
    /\ db_batch_queue.length Q = 3
    /\ db_batch_queue.head Q <> db_batch_queue.tail Q.
Proof.
  eexists _, _, _. split; [by vm_compute|]. split; [reflexivity|].
  split; [by vm_compute|]. split; [reflexivity|]. by vm_compute.
Defined.

Lemma is_bq_empty_agrees_with_length_witness :
  exists m,
    db_batch_queue.run (abi := db_batch_queue.lp64) samples.enqueue_10_3_7
      (db_batch_queue.start samples.three_selects) = Ok m
    /\ db_batch_queue.is_bq_empty m = Ok 1.
Proof.
  destruct sample_run_state as (m & q & Q & Hrun & Hbq & HQ & HL & _).
  exists m. split; [exact Hrun|].
  apply (is_bq_empty_agrees_with_length (abi := db_batch_queue.lp64)
           _ _ m q Q Hrun Hbq HQ). lia.
Defined.

Lemma add_tail_again_never_ends_witness :
  exists m Q m',
    db_batch_queue.run (abi := db_batch_queue.lp64) samples.enqueue_10_3_7
      (db_batch_queue.start samples.three_selects) = Ok m
    /\ db_batch_queue.add_batch_queue (abi := db_batch_queue.lp64)
         (Some (db_batch_queue.tail Q)) m = Ok (0, m')
    /\ db_batch_queue.queue_nodes 1000 m' = OutOfFuel.
Proof.
  destruct sample_run_state as (m & q & Q & Hrun & Hbq & HQ & HL & Hne).
  destruct (add_tail_again_never_ends (abi := db_batch_queue.lp64)
              _ _ m q Q Hrun Hbq HQ Hne) as (m' & Hadd & Hloop).
  { rewrite HL. by vm_compute. }
  exists m, Q, m'. split; [exact Hrun|]. split; [exact Hadd|].
  apply Hloop. intros a nd. by eexists.
Defined.

